(** * Verification model of w3c_batch: job registry, validation pipeline,
    sitemap resolution, URL rebasing and message normalisation.

    Sources: src/README.md (the server: [Job], [emit], [endJob],
    [runValidation], the stream and abort routes), src/src/sitemap.ts,
    src/src/utils.ts, src/src/validator.ts, src/src/reporter.ts and the
    command line, src/src/cli.ts. *)

From Stdlib Require Import List String Ascii Bool Arith NArith ZArith Lia.
Import ListNotations.
Open Scope string_scope.
Open Scope list_scope.

(* ------------------------------------------------------------------ *)
(** ** Messages (validator.ts / types.ts) *)

Inductive MessageType := MT_error | MT_warning | MT_info.

Definition MessageType_eqb (a b : MessageType) : bool :=
  match a, b with
  | MT_error, MT_error | MT_warning, MT_warning | MT_info, MT_info => true
  | _, _ => false
  end.

(** [W3CMessage]; its optional location fields and [extract] are not modelled. *)
Record W3CMessage := mkMsg {
  m_type : MessageType;
  m_message : string;
  m_subType : option string
}.

(** A raw message of the W3C API ([W3CApiResponse.messages[i]]). *)
Record RawMessage := mkRaw {
  r_type : string;
  r_subType : option string;
  r_message : string
}.

(** [normalizeType(type, subType)] *)
Definition normalizeType (type : string) (subType : option string) : MessageType :=
  if String.eqb type "error" then MT_error
  else if String.eqb type "info" && (match subType with
                                       | Some s => String.eqb s "warning"
                                       | None => false end)
  then MT_warning
  else MT_info.

(** [mapMessages(data)] *)
Definition mapMessages (data : list RawMessage) : list W3CMessage :=
  map (fun msg => mkMsg (normalizeType (r_type msg) (r_subType msg))
                        (r_message msg) (r_subType msg)) data.

(* ------------------------------------------------------------------ *)
(** ** Page results and summary (types.ts) *)

Inductive PageStatus := PS_clean | PS_warnings | PS_errors | PS_failed.

Definition PageStatus_eqb (a b : PageStatus) : bool :=
  match a, b with
  | PS_clean, PS_clean | PS_warnings, PS_warnings
  | PS_errors, PS_errors | PS_failed, PS_failed => true
  | _, _ => false
  end.

(** [PageResult]; [duration] is wall-clock time and is not modelled. *)
Record PageResult := mkResult {
  pr_url : string;
  pr_sourceUrl : string;
  pr_messages : list W3CMessage;
  pr_status : PageStatus;
  pr_errorMessage : option string
}.

(** [ReportSummary]; [generatedAt] is a timestamp and is not modelled. *)
Record ReportSummary := mkSummary {
  totalPages : nat;
  pagesWithErrors : nat;
  pagesWithWarnings : nat;
  pagesClean : nat;
  pagesFailed : nat;
  totalErrors : nat;
  totalWarnings : nat;
  totalInfos : nat;
  sitemapUrl : string
}.

(* ------------------------------------------------------------------ *)
(** ** Events of the stream (the objects passed to [emit]) *)

Inductive Event :=
| Ev_sitemap_error (message : string)
| Ev_sitemapindex_resolving (count : nat) (urls : list string)
| Ev_sitemapindex_fetching (url : string)
| Ev_sitemapindex_fetched (url : string) (count : nat)
| Ev_sitemapindex_fetch_error (url : string) (message : string)
| Ev_sitemapindex_resolved (totalUrls : nat)
| Ev_sitemap_done (count : nat) (urls : list string)
| Ev_page_fetching (index : nat) (url : string)
| Ev_page_validating (index : nat) (url : string)
| Ev_page_done (index : nat) (url : string) (status : PageStatus)
    (messages : list W3CMessage) (errorMessage : option string)
| Ev_cancelled
| Ev_done (summary : ReportSummary)
| Ev_stream_end.

Definition is_cancelled (e : Event) : bool :=
  match e with Ev_cancelled => true | _ => false end.

Definition is_page_fetching (e : Event) : bool :=
  match e with Ev_page_fetching _ _ => true | _ => false end.

Definition is_stream_end (e : Event) : bool :=
  match e with Ev_stream_end => true | _ => false end.

Definition is_done (e : Event) : bool :=
  match e with Ev_done _ => true | _ => false end.

(* ------------------------------------------------------------------ *)
(** ** Job registry (README.md: [Job], [createJob], [emit], [endJob])

    Observers are the stream responses, identified by a number.  A
    listener writes each event's data into its response, and ends the
    response when that data contains ['"stream_end"']. *)

Record Job := mkJob {
  buffered : list Event;
  listeners : list nat;
  report : option (ReportSummary * list PageResult);
  done : bool;
  aborted : bool
}.

Definition createJob : Job := mkJob [] [] None false false.

(** What each response has received, and which responses are ended. *)
Record Responses := mkResponses {
  written : nat -> list Event;
  ended : nat -> bool
}.

Definition no_responses : Responses := mkResponses (fun _ => []) (fun _ => false).

(** *** The text [emit] sends: [`data: ${JSON.stringify(event)}\n\n`] *)

Definition qt : ascii := ascii_of_nat 34.
Definition bsl : ascii := ascii_of_nat 92.
Definition str1 (c : ascii) : string := String c EmptyString.

Definition hex_digit (n : nat) : ascii :=
  ascii_of_nat (if (n <? 10)%nat then 48 + n else 87 + n).

(** [QuoteJSONString] on one code unit. *)
Definition json_char (c : ascii) : string :=
  let n := nat_of_ascii c in
  if Nat.eqb n 34 then String bsl (str1 qt)
  else if Nat.eqb n 92 then String bsl (str1 bsl)
  else if Nat.eqb n 8 then String bsl "b"
  else if Nat.eqb n 12 then String bsl "f"
  else if Nat.eqb n 10 then String bsl "n"
  else if Nat.eqb n 13 then String bsl "r"
  else if Nat.eqb n 9 then String bsl "t"
  else if (n <? 32)%nat
  then String bsl (String "u"%char (String "0"%char (String "0"%char
         (String (hex_digit (n / 16)) (str1 (hex_digit (n mod 16)))))))
  else str1 c.

Fixpoint json_escape (s : string) : string :=
  match s with
  | EmptyString => EmptyString
  | String c s' => String.append (json_char c) (json_escape s')
  end.

Definition json_str (s : string) : string :=
  String qt (String.append (json_escape s) (str1 qt)).

Fixpoint dec_digits (fuel n : nat) (acc : string) : string :=
  match fuel with
  | O => acc
  | S f =>
      let acc' := String (ascii_of_nat (48 + n mod 10)) acc in
      if (n <? 10)%nat then acc' else dec_digits f (n / 10) acc'
  end.

(** A count (an integer Number below 10^21) as [JSON.stringify] writes it. *)
Definition json_nat (n : nat) : string := dec_digits (S n) n EmptyString.

(** An object literal: its own properties in creation order, [undefined]
    ones left out by the caller. *)
Definition json_obj (fields : list (string * string)) : string :=
  ("{" ++ String.concat "," (map (fun kv => json_str (fst kv) ++ ":" ++ snd kv) fields)
   ++ "}")%string.

Definition json_arr (items : list string) : string :=
  ("[" ++ String.concat "," items ++ "]")%string.

Definition message_type_text (t : MessageType) : string :=
  match t with MT_error => "error" | MT_warning => "warning" | MT_info => "info" end.

Definition page_status_text (s : PageStatus) : string :=
  match s with
  | PS_clean => "clean" | PS_warnings => "warnings"
  | PS_errors => "errors" | PS_failed => "failed"
  end.

(** A [W3CMessage] of the model: its location fields and [extract] are not
    modelled, so it is serialised as a message without them; [subType] is
    left out when [undefined]. *)
Definition json_message (m : W3CMessage) : string :=
  json_obj ([("type", json_str (message_type_text (m_type m)));
             ("message", json_str (m_message m))]
            ++ match m_subType m with
               | Some st => [("subType", json_str st)]
               | None => []
               end).

(** The [summary] object.  Its [generatedAt] (an ISO timestamp string of
    digits, [-], [:], [.], [T] and [Z]) is not modelled and is left out:
    the text it would add holds no part of the pattern the listener looks
    for, so leaving it out changes no listener's decision. *)
Definition json_summary (r : ReportSummary) : string :=
  json_obj [("totalPages", json_nat (totalPages r));
            ("pagesWithErrors", json_nat (pagesWithErrors r));
            ("pagesWithWarnings", json_nat (pagesWithWarnings r));
            ("pagesClean", json_nat (pagesClean r));
            ("pagesFailed", json_nat (pagesFailed r));
            ("totalErrors", json_nat (totalErrors r));
            ("totalWarnings", json_nat (totalWarnings r));
            ("totalInfos", json_nat (totalInfos r));
            ("sitemapUrl", json_str (sitemapUrl r))].

(** [JSON.stringify(event)] for the object literals passed to [emit] in
    [runValidation], [endJob] and the abort route.  The [page_done] event's
    [duration] (a number, not modelled) is left out, for the reason given
    for [generatedAt]. *)
Definition event_json (e : Event) : string :=
  let ty t := ("type", json_str t) in
  match e with
  | Ev_sitemap_error m => json_obj [ty "sitemap_error"; ("message", json_str m)]
  | Ev_sitemapindex_resolving c us =>
      json_obj [ty "sitemapindex_resolving"; ("count", json_nat c);
                ("urls", json_arr (map json_str us))]
  | Ev_sitemapindex_fetching u => json_obj [ty "sitemapindex_fetching"; ("url", json_str u)]
  | Ev_sitemapindex_fetched u c =>
      json_obj [ty "sitemapindex_fetched"; ("url", json_str u); ("count", json_nat c)]
  | Ev_sitemapindex_fetch_error u m =>
      json_obj [ty "sitemapindex_fetch_error"; ("url", json_str u); ("message", json_str m)]
  | Ev_sitemapindex_resolved n => json_obj [ty "sitemapindex_resolved"; ("totalUrls", json_nat n)]
  | Ev_sitemap_done c us =>
      json_obj [ty "sitemap_done"; ("count", json_nat c); ("urls", json_arr (map json_str us))]
  | Ev_page_fetching i u => json_obj [ty "page_fetching"; ("index", json_nat i); ("url", json_str u)]
  | Ev_page_validating i u =>
      json_obj [ty "page_validating"; ("index", json_nat i); ("url", json_str u)]
  | Ev_page_done i u st ms em =>
      json_obj ([ty "page_done"; ("index", json_nat i); ("url", json_str u);
                 ("status", json_str (page_status_text st));
                 ("messages", json_arr (map json_message ms))]
                ++ match em with Some m => [("errorMessage", json_str m)] | None => [] end)
  | Ev_cancelled => json_obj [ty "cancelled"]
  | Ev_done r => json_obj [ty "done"; ("summary", json_summary r)]
  | Ev_stream_end => json_obj [ty "stream_end"]
  end.

Definition event_data (e : Event) : string :=
  ("data: " ++ event_json e ++ str1 (ascii_of_nat 10) ++ str1 (ascii_of_nat 10))%string.

(** [String.prototype.includes] *)
Definition includes (pat s : string) : bool :=
  match String.index 0 pat s with Some _ => true | None => false end.

(** The listener's test [d.includes('"stream_end"')]. *)
Definition listener_ends (e : Event) : bool :=
  includes (String qt (String.append "stream_end" (str1 qt))) (event_data e).

(** The listener of response [o] receives [d]:
    [(d) => { res.write(d); if (d.includes('"stream_end"')) res.end() }]. *)
Definition deliver (d : Event) (rs : Responses) (o : nat) : Responses :=
  if ended rs o then rs
  else mkResponses
         (fun o' => if Nat.eqb o' o then written rs o ++ [d] else written rs o')
         (fun o' => if Nat.eqb o' o then listener_ends d else ended rs o').

(** [emit(job, event)]: push to [buffered], then call every listener. *)
Definition emit (j : Job) (rs : Responses) (e : Event) : Job * Responses :=
  (mkJob (buffered j ++ [e]) (listeners j) (report j) (done j) (aborted j),
   fold_left (deliver e) (listeners j) rs).

Definition set_done (j : Job) : Job :=
  mkJob (buffered j) (listeners j) (report j) true (aborted j).

Definition set_aborted (j : Job) : Job :=
  mkJob (buffered j) (listeners j) (report j) (done j) true.

(** [endJob(job)] *)
Definition endJob (j : Job) (rs : Responses) : Job * Responses :=
  let '(j1, rs1) := emit j rs Ev_stream_end in (set_done j1, rs1).

(** The abort route on an existing job:
    [job.aborted = true; emit(job, cancelled); endJob(job)]. *)
Definition abort_route (j : Job) (rs : Responses) : Job * Responses :=
  let '(j1, rs1) := emit (set_aborted j) rs Ev_cancelled in endJob j1 rs1.

(** The stream route on an existing job, for response [o]: write every
    buffered event; if [job.done], end the response and return; otherwise
    register the listener. *)
Definition write_all (o : nat) (es : list Event) (rs : Responses) : Responses :=
  mkResponses
    (fun o' => if Nat.eqb o' o then written rs o ++ es else written rs o')
    (ended rs).

Definition end_response (o : nat) (rs : Responses) : Responses :=
  mkResponses (written rs) (fun o' => if Nat.eqb o' o then true else ended rs o').

Definition stream_route (o : nat) (j : Job) (rs : Responses) : Job * Responses :=
  let rs1 := write_all o (buffered j) rs in
  if done j then (j, end_response o rs1)
  else (mkJob (buffered j) (listeners j ++ [o]) (report j) (done j) (aborted j), rs1).

(* ------------------------------------------------------------------ *)
(** ** Fallible results (a thrown [Error] carries its message) *)

Inductive Res (A : Type) := Ok (a : A) | Err (msg : string).
Arguments Ok {A} a.
Arguments Err {A} msg.

Definition bind {A B} (r : Res A) (f : A -> Res B) : Res B :=
  match r with Ok a => f a | Err m => Err m end.

Notation "x <- r ;; k" := (bind r (fun x => k))
  (at level 61, r at next level, right associativity).

Fixpoint traverse {A B} (f : A -> Res B) (l : list A) : Res (list B) :=
  match l with
  | [] => Ok []
  | a :: l' => b <- f a ;; bs <- traverse f l' ;; Ok (b :: bs)
  end.

(* ------------------------------------------------------------------ *)
(** ** Sitemap parsing (sitemap.ts)

    [parser.parse] (fast-xml-parser) yields an object; only its truthy
    [urlset] / [sitemapindex] members and their entries' [loc] matter.
    [None] stands for an absent (or falsy) member. *)

(** The value of an entry's [loc]: a string, or another truthy value (the
    parser keeps attributes, so [<loc a="...">] gives an object, and a
    repeated [<loc>] gives an array).  Such a value reaches axios and the
    WHATWG URL parser, which read it through [String(value)]; [text] is that
    string (["[object Object]"] for an object). *)
Inductive LocVal :=
| Loc_str (s : string)
| Loc_other (text : string).

Record Parsed := mkParsed {
  px_urlset : option (list (option LocVal));
  px_sitemapindex : option (list (option LocVal))
}.

Inductive ParseResult :=
| PR_urls (urls : list string)
| PR_sitemapindex (sitemapUrls : list string).

(** [.map((entry) => entry.loc).filter((loc) => typeof loc === 'string' && loc.length > 0)] *)
Fixpoint locs (entries : list (option LocVal)) : list string :=
  match entries with
  | [] => []
  | Some (Loc_str s) :: es => if (0 <? String.length s)%nat then s :: locs es else locs es
  | Some (Loc_other _) :: es => locs es
  | None :: es => locs es
  end.

(** The collaborators the pipeline calls: the XML parser, the network
    (axios), and the WHATWG URL layer ([resolveUrlToBase], [getOrigin]),
    and [String.prototype.trim]. *)
Record Env := mkEnv {
  parse : string -> Parsed;
  fetch_text : string -> Res string;
  isLocalhost : string -> bool;
  fetchPageHtml : string -> Res string;
  validateHtml : string -> Res (list W3CMessage);
  validateUrl : string -> Res (list W3CMessage);
  rebase : string -> string -> Res string;
  getOrigin : string -> Res string;
  trim : string -> string
}.

Definition MAX_DEPTH : nat := 3.

(** [parseUrlsFromXml(xmlText)] *)
Definition parseUrlsFromXml (env : Env) (xmlText : string) : Res ParseResult :=
  let parsed := parse env xmlText in
  match px_urlset parsed with
  | Some entries => Ok (PR_urls (locs entries))
  | None =>
      match px_sitemapindex parsed with
      | Some entries => Ok (PR_sitemapindex (locs entries))
      | None => Err "Unrecognized XML format. Expected a sitemap <urlset> with <url> entries."
      end
  end.

(** [extractUrlsFromSitemap(sitemapUrl, depth)].  The recursion is bounded
    by the depth guard; [fuel] only makes it structural: from depth [d] at
    most [MAX_DEPTH + 1 - d] nested calls pass the guard, and
    [extractUrlsFromSitemap] starts with fuel [S MAX_DEPTH]: a call at
    depth [d] runs with fuel [S MAX_DEPTH - d], so for calls starting at
    depth [0] the fuel runs out exactly when the guard fires. *)
Fixpoint extract_aux (env : Env) (fuel : nat) (sitemapUrl : string) (depth : nat)
  : Res (list string) :=
  if (MAX_DEPTH <? depth)%nat then Ok []
  else
    match fuel with
    | O => Ok []
    | S fuel' =>
        xmlText <- match fetch_text env sitemapUrl with
                   | Ok t => Ok t
                   | Err m => Err ("Failed to fetch sitemap at " ++ sitemapUrl ++ ": " ++ m)
                   end ;;
        let parsed := parse env xmlText in
        match px_sitemapindex parsed with
        | Some entries =>
            (fix loop (es : list (option LocVal)) (urls : list string) :=
               match es with
               | [] => Ok urls
               | Some (Loc_str loc) :: es' =>
                   if (0 <? String.length loc)%nat then
                     nested <- extract_aux env fuel' loc (S depth) ;;
                     loop es' (urls ++ nested)
                   else loop es' urls
               | Some (Loc_other loc) :: es' =>
                   nested <- extract_aux env fuel' loc (S depth) ;;
                   loop es' (urls ++ nested)
               | None :: es' => loop es' urls
               end) entries []
        | None =>
            match px_urlset parsed with
            | Some entries => Ok (locs entries)
            | None => Err ("Unrecognized sitemap format at " ++ sitemapUrl)
            end
        end
    end.

Definition extractUrlsFromSitemap (env : Env) (sitemapUrl : string) (depth : nat)
  : Res (list string) :=
  extract_aux env (S MAX_DEPTH) sitemapUrl depth.

(** The sitemap-index entries that pass [if (entry.loc)], with the URL the
    nested call then fetches. *)
Definition nested_target (e : option LocVal) : option string :=
  match e with
  | Some (Loc_str s) => if (0 <? String.length s)%nat then Some s else None
  | Some (Loc_other t) => Some t
  | None => None
  end.

(* ------------------------------------------------------------------ *)
(** ** The validation pipeline ([runValidation] in README.md)

    The pipeline runs under [pLimit(1)] and sleeps [1000] ms after each
    page.  It is modelled as a sequence of macro-steps, each step being the
    code between two awaits on I/O (a sitemap fetch, the checker call, the
    sleep); requests to the other routes (abort, stream) are handled
    between macro-steps. *)

Module Pipeline.

Definition INTER_TASK_DELAY_MS : nat := 1000.

(** The body of [POST /api/validate] as it may be sent. *)
Record Submission := mkSubmission {
  s_xml : string;
  s_base : option string;
  s_concurrency : option nat;
  s_interTaskDelayMs : option nat
}.

(** [params: { xml: string; base: string }], the only fields read. *)
Record Params := mkParams { p_xml : string; p_base : option string }.

Definition params_of (s : Submission) : Params := mkParams (s_xml s) (s_base s).

(** Where [runValidation] is suspended. *)
Inductive PC :=
| PC_resolve
| PC_index_fetch (u : string) (rest : list string) (acc : list string)
| PC_task_await (i : nat)
| PC_task_sleep (i : nat)
| PC_finished.

Record World := mkWorld {
  w_job : Job;
  w_rs : Responses;
  w_pc : PC;
  w_params : Params;
  w_urls : list (string * string);          (** [resolvedUrls]: (source, resolved) *)
  w_results : list (option PageResult);     (** [results], holes as [None] *)
  w_base : string;                          (** [baseUrl] *)
  w_sleeps : list nat                       (** the [sleep(ms)] calls made *)
}.

Definition with_job (w : World) (jr : Job * Responses) : World :=
  mkWorld (fst jr) (snd jr) (w_pc w) (w_params w) (w_urls w) (w_results w)
          (w_base w) (w_sleeps w).

Definition with_pc (w : World) (pc : PC) : World :=
  mkWorld (w_job w) (w_rs w) pc (w_params w) (w_urls w) (w_results w)
          (w_base w) (w_sleeps w).

Definition emitW (w : World) (e : Event) : World :=
  with_job w (emit (w_job w) (w_rs w) e).

Definition endJobW (w : World) : World :=
  with_job w (endJob (w_job w) (w_rs w)).

Fixpoint emit_all (w : World) (es : list Event) : World :=
  match es with [] => w | e :: es' => emit_all (emitW w e) es' end.

Definition init (s : Submission) : World :=
  mkWorld createJob no_responses PC_resolve (params_of s) [] [] "" [].

(** Counting as [messages.filter((m) => m.type === t).length]. *)
Definition count_type (t : MessageType) (msgs : list W3CMessage) : nat :=
  List.length (filter (fun m => MessageType_eqb (m_type m) t) msgs).

Definition count_status (s : PageStatus) (rs : list PageResult) : nat :=
  List.length (filter (fun r => PageStatus_eqb (pr_status r) s) rs).

(** [errors > 0 ? 'errors' : warnings > 0 ? 'warnings' : 'clean'] *)
Definition classify (msgs : list W3CMessage) : PageStatus :=
  let errors := count_type MT_error msgs in
  let warnings := count_type MT_warning msgs in
  if (0 <? errors)%nat then PS_errors
  else if (0 <? warnings)%nat then PS_warnings
  else PS_clean.

(** [results.filter(Boolean)] *)
Fixpoint valid_results (rs : list (option PageResult)) : list PageResult :=
  match rs with
  | [] => []
  | Some r :: rs' => r :: valid_results rs'
  | None :: rs' => valid_results rs'
  end.

Definition sum_type (t : MessageType) (valid : list PageResult) : nat :=
  fold_left (fun s r => s + count_type t (pr_messages r)) valid 0.

Definition summarize (valid : list PageResult) (baseUrl : string) : ReportSummary :=
  mkSummary (List.length valid)
            (count_status PS_errors valid)
            (count_status PS_warnings valid)
            (count_status PS_clean valid)
            (count_status PS_failed valid)
            (sum_type MT_error valid)
            (sum_type MT_warning valid)
            (sum_type MT_info valid)
            baseUrl.

(** [results[index] = result] for an index inside the array. *)
Fixpoint list_set {A} (l : list A) (i : nat) (x : A) : list A :=
  match l, i with
  | [], _ => []
  | _ :: l', O => x :: l'
  | y :: l', S i' => y :: list_set l' i' x
  end.

Section WithEnv.
Variable env : Env.

(** [validatePage(url)] *)
Definition validatePage (url : string) : Res (list W3CMessage) :=
  if isLocalhost env url then
    html <- fetchPageHtml env url ;; validateHtml env html
  else
    match validateUrl env url with
    | Ok msgs => Ok msgs
    | Err _ => html <- fetchPageHtml env url ;; validateHtml env html
    end.

(** After [await Promise.all(tasks)]: the summary, the report, [done]
    and [endJob]. *)
Definition finalize (w : World) : World :=
  let valid := valid_results (w_results w) in
  let summary := summarize valid (w_base w) in
  let j := w_job w in
  let w1 := with_job w (mkJob (buffered j) (listeners j) (Some (summary, valid))
                              (done j) (aborted j), w_rs w) in
  with_pc (endJobW (emitW w1 (Ev_done summary))) PC_finished.

(** Starting tasks [i], [i+1], ... of the limiter queue until one reaches
    its checker call: a task that finds [job.aborted] returns at once and
    the next one starts; after the last task the pipeline finalizes. *)
Fixpoint start_tasks (fuel : nat) (i : nat) (w : World) : World :=
  match fuel with
  | O => finalize w
  | S fuel' =>
      if aborted (w_job w) then start_tasks fuel' (S i) w
      else
        match nth_error (w_urls w) i with
        | Some (_, resolved) =>
            with_pc (emitW w (Ev_page_fetching i resolved)) (PC_task_await i)
        | None => finalize w
        end
  end.

Definition start_from (i : nat) (w : World) : World :=
  start_tasks (List.length (w_urls w) - i) i w.

(** The code after the sitemap is resolved into [rawUrls]. *)
Definition after_resolve (rawUrls : list string) (w : World) : World :=
  match rawUrls with
  | [] =>
      with_pc (endJobW (emitW w (Ev_sitemap_error "No <url> entries found in the sitemap XML.")))
              PC_finished
  | raw0 :: _ =>
      let baseUrl :=
        match p_base (w_params w) with
        | None => Err "Cannot read properties of undefined (reading 'trim')"
        | Some b => let t := trim env b in
                    if String.eqb t "" then getOrigin env raw0 else Ok t
        end in
      match bind baseUrl (fun b =>
              bind (traverse (fun u => r <- rebase env u b ;; Ok (u, r)) rawUrls)
                   (fun us => Ok (b, us))) with
      | Err _ => with_pc w PC_finished   (* rejected promise, only logged *)
      | Ok (b, us) =>
          let w1 := emitW w (Ev_sitemap_done (List.length us) (map snd us)) in
          let w2 := mkWorld (w_job w1) (w_rs w1) (w_pc w1) (w_params w1) us
                            (repeat None (List.length us)) b (w_sleeps w1) in
          start_from 0 w2
      end
  end.

(** The outcome of one nested sitemap of the index loop. *)
Definition nested_outcome (u : string) : list string * list Event :=
  match fetch_text env u with
  | Err m => ([], [Ev_sitemapindex_fetch_error u m])
  | Ok text =>
      match parseUrlsFromXml env text with
      | Err m => ([], [Ev_sitemapindex_fetch_error u m])
      | Ok (PR_urls l) => (l, [Ev_sitemapindex_fetched u (List.length l)])
      | Ok (PR_sitemapindex _) => ([], [])
      end
  end.

(** Continue the index loop with the next nested sitemap, or leave it. *)
Definition index_next (rest : list string) (acc : list string) (w : World) : World :=
  match rest with
  | u :: rest' => with_pc (emitW w (Ev_sitemapindex_fetching u)) (PC_index_fetch u rest' acc)
  | [] => after_resolve acc (emitW w (Ev_sitemapindex_resolved (List.length acc)))
  end.

(** The page task once [validatePage] settles. *)
Definition task_finish (i : nat) (w : World) : World :=
  match nth_error (w_urls w) i with
  | None => with_pc w PC_finished
  | Some (source, resolved) =>
      let '(w1, result) :=
        match validatePage resolved with
        | Ok messages =>
            (emitW w (Ev_page_validating i resolved),
             mkResult resolved source messages (classify messages) None)
        | Err m => (w, mkResult resolved source [] PS_failed (Some m))
        end in
      let w2 := mkWorld (w_job w1) (w_rs w1) (w_pc w1) (w_params w1) (w_urls w1)
                        (list_set (w_results w1) i (Some result)) (w_base w1)
                        (w_sleeps w1) in
      let w3 := emitW w2 (Ev_page_done i (pr_url result) (pr_status result)
                                       (pr_messages result) (pr_errorMessage result)) in
      mkWorld (w_job w3) (w_rs w3) (PC_task_sleep i) (w_params w3) (w_urls w3)
              (w_results w3) (w_base w3) (w_sleeps w3 ++ [INTER_TASK_DELAY_MS])
  end.

(** One macro-step of [runValidation]. *)
Definition pipe_step (w : World) : World :=
  match w_pc w with
  | PC_resolve =>
      match parseUrlsFromXml env (p_xml (w_params w)) with
      | Err m => with_pc (endJobW (emitW w (Ev_sitemap_error m))) PC_finished
      | Ok (PR_urls l) => after_resolve l w
      | Ok (PR_sitemapindex l) =>
          index_next l [] (emitW w (Ev_sitemapindex_resolving (List.length l) l))
      end
  | PC_index_fetch u rest acc =>
      let '(l, evs) := nested_outcome u in
      index_next rest (acc ++ l) (emit_all w evs)
  | PC_task_await i => task_finish i w
  | PC_task_sleep i => start_from (S i) w
  | PC_finished => w
  end.

(** What can happen between two macro-steps. *)
Inductive Action := Tick | Abort | Attach (o : nat).

Definition act (a : Action) (w : World) : World :=
  match a with
  | Tick => pipe_step w
  | Abort => with_job w (abort_route (w_job w) (w_rs w))
  | Attach o => with_job w (stream_route o (w_job w) (w_rs w))
  end.

Fixpoint exec (acts : list Action) (w : World) : World :=
  match acts with [] => w | a :: acts' => exec acts' (act a w) end.

End WithEnv.

End Pipeline.

(* ------------------------------------------------------------------ *)
(** ** [resolveUrlToBase] (utils.ts) over the WHATWG URL record

    [new URL(s)] is the platform's URL parser, taken as a parameter
    [url_parse]; a parsed URL is the record below (the host already in
    its serialized form).  The three assignments of [resolveUrlToBase]
    run the URL Standard's setters: [protocol] (scheme state with state
    override), [hostname] (host state with state override) and [port]. *)

Module Url.

Record URL := mkURL {
  scheme : string;
  username : string;
  password : string;
  host : option string;
  port : option nat;
  opaque_path : bool;
  path : string;
  query : option string;
  fragment : option string
}.

Definition is_special (s : string) : bool :=
  existsb (String.eqb s) ["ftp"; "file"; "http"; "https"; "ws"; "wss"].

Definition default_port (s : string) : option nat :=
  if String.eqb s "ftp" then Some 21
  else if String.eqb s "http" then Some 80
  else if String.eqb s "https" then Some 443
  else if String.eqb s "ws" then Some 80
  else if String.eqb s "wss" then Some 443
  else None.

Definition opt_nat_eqb (a b : option nat) : bool :=
  match a, b with
  | Some x, Some y => Nat.eqb x y
  | None, None => true
  | _, _ => false
  end.

Definition includes_credentials (u : URL) : bool :=
  negb (String.eqb (username u) "" && String.eqb (password u) "").

Definition host_is_empty (u : URL) : bool :=
  match host u with Some h => String.eqb h "" | None => false end.

Definition with_scheme (u : URL) (s : string) : URL :=
  mkURL s (username u) (password u) (host u) (port u) (opaque_path u) (path u)
        (query u) (fragment u).

Definition with_host (u : URL) (h : option string) : URL :=
  mkURL (scheme u) (username u) (password u) h (port u) (opaque_path u) (path u)
        (query u) (fragment u).

Definition with_port (u : URL) (p : option nat) : URL :=
  mkURL (scheme u) (username u) (password u) (host u) p (opaque_path u) (path u)
        (query u) (fragment u).

(** [url.protocol = s + ':'] *)
Definition set_protocol (u : URL) (s : string) : URL :=
  if is_special (scheme u) && negb (is_special s) then u
  else if negb (is_special (scheme u)) && is_special s then u
  else if (includes_credentials u || negb (opt_nat_eqb (port u) None))
          && String.eqb s "file" then u
  else if String.eqb (scheme u) "file" && host_is_empty u then u
  else
    let u' := with_scheme u s in
    if opt_nat_eqb (port u') (default_port s) then with_port u' None else u'.

(** [url.hostname = h] *)
Definition set_hostname (u : URL) (h : string) : URL :=
  if opaque_path u then u
  else if String.eqb (scheme u) "file" then
    with_host u (Some (if String.eqb h "localhost" then "" else h))
  else if is_special (scheme u) && String.eqb h "" then u
  else if String.eqb h "" && (includes_credentials u || negb (opt_nat_eqb (port u) None))
  then u
  else with_host u (Some h).

(** [url.port = p] ([None] is the empty string) *)
Definition set_port (u : URL) (p : option nat) : URL :=
  if String.eqb (scheme u) "file" then u
  else
    match host u with
    | None => u
    | Some h =>
        if String.eqb h "" then u
        else
          match p with
          | None => with_port u None
          | Some n => if opt_nat_eqb (Some n) (default_port (scheme u))
                      then with_port u None else with_port u (Some n)
          end
    end.

(** The getters [base.hostname] and [base.port]. *)
Definition hostname (u : URL) : string :=
  match host u with Some h => h | None => "" end.

Definition resolve_parsed (loc base : URL) : URL :=
  let loc1 := set_protocol loc (scheme base) in
  let loc2 := set_hostname loc1 (hostname base) in
  set_port loc2 (port base).

(** [resolveUrlToBase(locUrl, baseUrl)], the returned URL before
    serialization by [toString()]. *)
Definition resolveUrlToBase (url_parse : string -> option URL) (locUrl baseUrl : string)
  : Res URL :=
  match url_parse locUrl with
  | None => Err "Invalid URL"
  | Some loc =>
      match url_parse baseUrl with
      | None => Err "Invalid URL"
      | Some base => Ok (resolve_parsed loc base)
      end
  end.

(** What a successful parse of a URL with a special scheme other than
    [file] gives: a non-empty host, no opaque path, no default port. *)
Definition special_url (u : URL) : Prop :=
  is_special (scheme u) = true /\ scheme u <> "file" /\
  (exists h, host u = Some h /\ h <> "") /\ opaque_path u = false /\
  opt_nat_eqb (port u) (default_port (scheme u)) = false.

(** A parsed URL: a special one as above, or one with a non-special
    scheme (any host, path and port). *)
Definition parsed_url (u : URL) : Prop :=
  special_url u \/ is_special (scheme u) = false.

End Url.

(* ------------------------------------------------------------------ *)
(** ** How a pipeline step may change the world

    [grows w w']: the listeners, the abort flag and the parameters are
    unchanged; events are only appended, and none of them starts a page
    once the job is aborted; the job only becomes done together with a
    [stream_end] event; the only sleeps added are of [INTER_TASK_DELAY_MS];
    responses that are not listening are untouched. *)

Definition grows (w w' : Pipeline.World) : Prop :=
  listeners (Pipeline.w_job w') = listeners (Pipeline.w_job w) /\
  aborted (Pipeline.w_job w') = aborted (Pipeline.w_job w) /\
  Pipeline.w_params w' = Pipeline.w_params w /\
  (exists s, buffered (Pipeline.w_job w') = buffered (Pipeline.w_job w) ++ s /\
     (aborted (Pipeline.w_job w) = true ->
      Forall (fun e => is_page_fetching e = false) s)) /\
  (done (Pipeline.w_job w') = true ->
     done (Pipeline.w_job w) = true \/ In Ev_stream_end (buffered (Pipeline.w_job w'))) /\
  (exists k, Pipeline.w_sleeps w' =
             Pipeline.w_sleeps w ++ repeat Pipeline.INTER_TASK_DELAY_MS k) /\
  (forall o, ~ In o (listeners (Pipeline.w_job w)) ->
     written (Pipeline.w_rs w') o = written (Pipeline.w_rs w) o /\
     ended (Pipeline.w_rs w') o = ended (Pipeline.w_rs w) o).

(* ------------------------------------------------------------------ *)
(** ** How a pipeline step changes the job and its responses

    [runValidation] touches the job only through [emit] of a non-final
    event, [endJob], and, once, [job.report = ...] right before
    [emit(job, {type: 'done', summary})], where the report's summary is
    computed from its pages. *)

Inductive job_step : Job * Responses -> Job * Responses -> Prop :=
| JS_emit j rs e :
    e <> Ev_stream_end -> (forall s, e <> Ev_done s) ->
    job_step (j, rs) (emit j rs e)
| JS_end j rs : job_step (j, rs) (endJob j rs)
| JS_report j rs v b :
    job_step (j, rs)
      (emit (mkJob (buffered j) (listeners j) (Some (Pipeline.summarize v b, v))
                   (done j) (aborted j)) rs (Ev_done (Pipeline.summarize v b))).

Inductive job_steps : Job * Responses -> Job * Responses -> Prop :=
| JSS_refl x : job_steps x x
| JSS_step x y z : job_step x y -> job_steps y z -> job_steps x z.



(** [GET /api/report/:id]: 404 when the job is unknown or [job.report] is
    [null], otherwise 200 with the report. *)
Definition report_route (j : option Job)
  : nat * option (ReportSummary * list PageResult) :=
  match j with
  | None => (404, None)
  | Some j => match report j with
              | None => (404, None)
              | Some r => (200, Some r)
              end
  end.

(* ------------------------------------------------------------------ *)
(** ** Report helpers (validator.ts: [escapeHtml], [renderSidebarItem];
    reporter.ts: [printUniqueErrors])

    Strings are the UTF-8 bytes of the JavaScript strings.  The characters
    [escapeHtml] replaces are ASCII, and no byte of a multi-byte UTF-8
    sequence is ASCII, so replacing bytes replaces those characters.  The
    URLs shown in the sidebar are serialised URLs, which are ASCII, so
    their [length] is their number of bytes. *)

Module Report.

(** [s.replace(/c/g, r)] for a one-character pattern [c]. *)
Fixpoint replace_all (c : ascii) (r : string) (s : string) : string :=
  match s with
  | EmptyString => EmptyString
  | String a s' =>
      if Ascii.eqb a c then r ++ replace_all c r s' else String a (replace_all c r s')
  end.

Definition dquote : ascii := ascii_of_nat 34.

(** [escapeHtml(str)] *)
Definition escapeHtml (str : string) : string :=
  replace_all "'"%char "&#39;"
    (replace_all dquote "&quot;"
       (replace_all ">"%char "&gt;"
          (replace_all "<"%char "&lt;"
             (replace_all "&"%char "&amp;" str)))).

(** The length of the run of non-[/] characters at the start of [s]. *)
Fixpoint non_slash_run (s : string) : nat :=
  match s with
  | EmptyString => 0
  | String c s' => if Ascii.eqb c "/"%char then 0 else S (non_slash_run s')
  end.

(** The length of the match of [/^https?:\/\/[^/]+/] on [s], if any: the
    greedy [s?] is tried first, then without it. *)
Definition origin_match (s : string) : option nat :=
  let try_prefix p :=
    if String.prefix p s then
      let n := non_slash_run (substring (String.length p) (String.length s) s) in
      if (0 <? n)%nat then Some (String.length p + n) else None
    else None in
  match try_prefix "https://" with
  | Some n => Some n
  | None => try_prefix "http://"
  end.

(** [result.url.replace(/^https?:\/\/[^/]+/, '') || '/'] *)
Definition shortUrl (url : string) : string :=
  let stripped := match origin_match url with
                  | Some n => substring n (String.length url - n) url
                  | None => url
                  end in
  if String.eqb stripped "" then "/" else stripped.

(** [shortUrl.length > 40 ? shortUrl.slice(0, 37) + '...' : shortUrl] *)
Definition urlDisplay (url : string) : string :=
  let s := shortUrl url in
  if (40 <? String.length s)%nat then substring 0 37 s ++ "..." else s.

Definition type_name (t : MessageType) : string :=
  match t with MT_error => "error" | MT_warning => "warning" | MT_info => "info" end.

(** The replacement of one character. *)
Definition esc_char (a : ascii) : string :=
  if Ascii.eqb a "&"%char then "&amp;"
  else if Ascii.eqb a "<"%char then "&lt;"
  else if Ascii.eqb a ">"%char then "&gt;"
  else if Ascii.eqb a dquote then "&quot;"
  else if Ascii.eqb a "'"%char then "&#39;"
  else String a "".

Section UniqueIssues.
(** [String.prototype.trim]. *)
Variable js_trim : string -> string.

(** [`${msg.type}::${msg.message.trim()}`] *)
Definition issue_hash (msg : W3CMessage) : string :=
  type_name (m_type msg) ++ "::" ++ js_trim (m_message msg).

(** The [seen] map, its entries in insertion order:
    [existing ? existing.count++ : seen.set(hash, { msg, count: 1 })]. *)
Fixpoint seen_bump (seen : list (string * (W3CMessage * nat))) (hash : string)
    (msg : W3CMessage) : list (string * (W3CMessage * nat)) :=
  match seen with
  | [] => [(hash, (msg, 1))]
  | (h, (m, c)) :: rest =>
      if String.eqb h hash then (h, (m, S c)) :: rest
      else (h, (m, c)) :: seen_bump rest hash msg
  end.

(** The two loops of [printUniqueErrors(results)]. *)
Definition unique_issues (results : list PageResult) : list (string * (W3CMessage * nat)) :=
  fold_left (fun seen result =>
               fold_left (fun seen msg => seen_bump seen (issue_hash msg) msg)
                         (pr_messages result) seen)
            results [].

(** [totalAll = Array.from(seen.values()).reduce((s, v) => s + v.count, 0)] *)
Definition total_occurrences (seen : list (string * (W3CMessage * nat))) : nat :=
  fold_left (fun s v => s + snd (snd v)) seen 0.

(** One step of the inner loop. *)
Definition bump (seen : list (string * (W3CMessage * nat))) (msg : W3CMessage) :=
  seen_bump seen (issue_hash msg) msg.

(** How many of [l] have hash [h]. *)
Definition count_hash (h : string) (l : list W3CMessage) : nat :=
  List.length (filter (fun x => String.eqb (issue_hash x) h) l).

(** The invariant of the loop over all messages. *)
Definition seen_inv (l : list W3CMessage) (seen : list (string * (W3CMessage * nat))) : Prop :=
  NoDup (map fst seen) /\
  (forall h, In h (map fst seen) <-> exists m, In m l /\ issue_hash m = h) /\
  (forall h m c, In (h, (m, c)) seen ->
     c = count_hash h l /\
     exists pre post, l = pre ++ m :: post /\ issue_hash m = h /\
                      Forall (fun x => issue_hash x <> h) pre).

End UniqueIssues.

End Report.

(* ------------------------------------------------------------------ *)
(** ** The command line (cli.ts, [main])

    Console output (spinners, [printAllPageDetails], [printUniqueErrors],
    [printSummary]) is not modelled; [main]'s outcome is its exit code,
    the report file it writes, the pages it validates and the sleeps it
    takes. *)

Module Cli.

(** Strings as their UTF-16 code units. *)
Definition units := list N.

(** [StrWhiteSpaceChar]: WhiteSpace and LineTerminator code points. *)
Definition js_whitespace : list N :=
  [9; 10; 11; 12; 13; 32; 160; 5760; 8192; 8193; 8194; 8195; 8196; 8197; 8198;
   8199; 8200; 8201; 8202; 8232; 8233; 8239; 8287; 12288; 65279]%N.

Definition is_ws (c : N) : bool := existsb (N.eqb c) js_whitespace.

Definition is_digit (c : N) : bool := (48 <=? c)%N && (c <=? 57)%N.

Fixpoint skip_ws (s : units) : units :=
  match s with
  | [] => []
  | c :: s' => if is_ws c then skip_ws s' else s
  end.

Fixpoint digit_prefix (s : units) : units :=
  match s with
  | [] => []
  | c :: s' => if is_digit c then c :: digit_prefix s' else []
  end.

Definition digits_value (ds : units) : Z :=
  fold_left (fun acc d => (acc * 10 + Z.of_N (d - 48))%Z) ds 0%Z.

(** The Numbers [parseInt] returns besides NaN: integers and infinities. *)
Inductive IntNumber := Fin (z : Z) | PosInf | NegInf.

(** The double nearest a positive integer [z] (ties to even), or [None]
    when it rounds beyond the largest finite double (to Infinity). *)
Definition round_pos (z : Z) : option Z :=
  if (z <? 2 ^ 53)%Z then Some z
  else
    let sh := (Z.log2 z - 52)%Z in
    let q := Z.shiftr z sh in
    let r := (z - Z.shiftl q sh)%Z in
    let half := (2 ^ (sh - 1))%Z in
    let q' := if (half <? r)%Z || ((r =? half)%Z && Z.odd q) then (q + 1)%Z else q in
    let v := Z.shiftl q' sh in
    if (2 ^ 1024 <=? v)%Z then None else Some v.

(** The Number value of an integer [x] (the spec's F(x)). *)
Definition to_number (z : Z) : IntNumber :=
  if (0 <=? z)%Z then match round_pos z with Some v => Fin v | None => PosInf end
  else match round_pos (- z) with Some v => Fin (- v) | None => NegInf end.

(** [parseInt(s, 10)]: [None] is NaN.  The digits give the exact integer,
    which is returned as the Number F(sign * value) (V8 rounds the full
    digit string, without the optional approximation after 20 digits). *)
Definition parseInt10 (s : units) : option IntNumber :=
  let s1 := skip_ws s in
  let '(sign, s2) :=
    match s1 with
    | c :: r => if N.eqb c 45 then ((-1)%Z, r)
                else if N.eqb c 43 then (1%Z, r)
                else (1%Z, s1)
    | [] => (1%Z, s1)
    end in
  match digit_prefix s2 with
  | [] => None
  | ds => Some (to_number (sign * digits_value ds))
  end.

(** [Math.max(0, parseInt(options.delay, 10) || 1000)]: NaN and 0 are
    falsy. *)
Definition cli_delay (s : units) : IntNumber :=
  let n := match parseInt10 s with
           | None => Fin 1000
           | Some (Fin z) => if Z.eqb z 0 then Fin 1000 else Fin z
           | Some x => x
           end in
  match n with
  | Fin z => Fin (Z.max 0 z)
  | PosInf => PosInf
  | NegInf => Fin 0
  end.

(** [delay > 0] *)
Definition number_pos (n : IntNumber) : bool :=
  match n with Fin z => (0 <? z)%Z | PosInf => true | NegInf => false end.

Record Options := mkOptions {
  o_sitemap : string;
  o_base : option string;
  o_output : string;
  o_delay : units;
  o_unique : bool
}.

Record Outcome := mkOutcome {
  exit_code : nat;
  (** [writeFile(outputFile, generateHtmlReport({ summary, pages }))] *)
  report_file : option (string * (ReportSummary * list PageResult));
  (** the [validatePage] calls, in order *)
  validated : list string;
  (** the [sleep(delay)] calls *)
  sleeps : list IntNumber
}.

Section WithEnv.
Variable env : Env.
(** [writeFile(path, ...)] may reject. *)
Variable writeFile : string -> Res unit.

(** The CLI's [validatePage(url, spinner)] is the server's, with spinner
    text updates. *)
Definition page_result (source resolved : string) : PageResult :=
  match Pipeline.validatePage env resolved with
  | Ok messages => mkResult resolved source messages (Pipeline.classify messages) None
  | Err m => mkResult resolved source [] PS_failed (Some m)
  end.

(** [main()] with its [.catch] (a rejection is [Fatal error], exit 1). *)
Definition main (opts : Options) : Outcome :=
  let fatal := mkOutcome 1 None [] [] in
  match match o_base opts with
        | Some b => Ok b
        | None => getOrigin env (o_sitemap opts)
        end with
  | Err _ => fatal
  | Ok baseUrl =>
      let delay := cli_delay (o_delay opts) in
      match extractUrlsFromSitemap env (o_sitemap opts) 0 with
      | Err _ => mkOutcome 1 None [] []
      | Ok [] => mkOutcome 0 None [] []
      | Ok rawUrls =>
          match traverse (fun url => r <- rebase env url baseUrl ;; Ok (url, r)) rawUrls with
          | Err _ => fatal
          | Ok resolvedUrls =>
              let results := map (fun p => page_result (fst p) (snd p)) resolvedUrls in
              let summary := Pipeline.summarize results (o_sitemap opts) in
              let sleeps := if number_pos delay
                            then repeat delay (List.length resolvedUrls) else [] in
              match writeFile (o_output opts) with
              | Err _ => mkOutcome 1 None (map snd resolvedUrls) sleeps
              | Ok _ =>
                  mkOutcome (if (0 <? pagesWithErrors summary)%nat
                                || (0 <? pagesFailed summary)%nat then 1 else 0)
                            (Some (o_output opts, (summary, results)))
                            (map snd resolvedUrls) sleeps
              end
          end
      end
  end.

End WithEnv.

End Cli.

(* ------------------------------------------------------------------ *)
(** ** The events of the page tasks of a run that is not aborted *)

Module RunEvents.

(** What task [i] emits after its [page_fetching] event: [page_validating]
    when the checker call succeeds, then [page_done] with the result. *)
Definition page_done_events (env : Env) (i : nat) (p : string * string) : list Event :=
  let r := Cli.page_result env (fst p) (snd p) in
  match Pipeline.validatePage env (snd p) with
  | Ok _ => [Ev_page_validating i (snd p)]
  | Err _ => []
  end ++ [Ev_page_done i (pr_url r) (pr_status r) (pr_messages r) (pr_errorMessage r)].

(** The events of tasks [i], [i+1], ... over the pages [us]. *)
Fixpoint run_events (env : Env) (i : nat) (us : list (string * string)) : list Event :=
  match us with
  | [] => []
  | p :: us' => Ev_page_fetching i (snd p) :: page_done_events env i p ++ run_events env (S i) us'
  end.

End RunEvents.

(* ------------------------------------------------------------------ *)
(** ** A concrete environment for scenarios

    Documents are named by their text; pages all validate clean. *)

Module Fixture.
Import Pipeline.

Definition page_a := "https://example.com/a".
Definition page_b := "https://example.com/b".
Definition nested_url := "https://example.com/nested.xml".
Definition deep_url := "https://example.com/deep.xml".

Definition ex_parse (s : string) : Parsed :=
  if String.eqb s "xml_two" then mkParsed (Some [Some (Loc_str page_a); Some (Loc_str page_b)]) None
  else if String.eqb s "xml_one" then mkParsed (Some [Some (Loc_str page_a)]) None
  else if String.eqb s "xml_index" then mkParsed None (Some [Some (Loc_str nested_url)])
  else if String.eqb s "xml_nested_index" then mkParsed None (Some [Some (Loc_str deep_url)])
  else mkParsed None None.

Definition ex_fetch (u : string) : Res string :=
  if String.eqb u nested_url then Ok "xml_nested_index"
  else if String.eqb u deep_url then Ok "xml_one"
  else Err "Request failed with status code 404".

Definition ex_env : Env :=
  mkEnv ex_parse ex_fetch (fun _ => false) (fun _ => Ok "<!DOCTYPE html>")
        (fun _ => Ok []) (fun _ => Ok []) (fun u _ => Ok u)
        (fun _ => Ok "https://example.com") (fun s => s).

Definition sub (xml : string) : Submission := mkSubmission xml (Some "") None None.

(** A sitemap index whose only nested sitemap cannot be fetched, and one
    whose only entry is a [<loc>] with an attribute. *)
Definition broken_index_url := "https://example.com/broken-index.xml".
Definition missing_url := "https://example.com/missing.xml".
Definition attr_index_url := "https://example.com/attr-index.xml".

Definition broken_env : Env :=
  mkEnv (fun s => if String.eqb s "xml_broken_index"
                  then mkParsed None (Some [Some (Loc_str missing_url)])
                  else if String.eqb s "xml_attr_index"
                  then mkParsed None (Some [Some (Loc_other "[object Object]")])
                  else mkParsed None None)
        (fun u => if String.eqb u broken_index_url then Ok "xml_broken_index"
                  else if String.eqb u attr_index_url then Ok "xml_attr_index"
                  else if String.eqb u "[object Object]" then Err "Invalid URL"
                  else Err "Request failed with status code 404")
        (fun _ => false) (fun _ => Ok "<!DOCTYPE html>")
        (fun _ => Ok []) (fun _ => Ok []) (fun u _ => Ok u)
        (fun _ => Ok "https://example.com") (fun s => s).

End Fixture.

(* ================================================================== *)
(** * Properties *)

(* ------------------------------------------------------------------ *)
(** ** Message normalisation *)

(** Claim C10: [normalizeType] maps type ['error'] to error, type ['info']
    with subType ['warning'] to warning, and everything else to info;
    [mapMessages] gives each message the kind [normalizeType] computes
    from its raw type and subType. *)
Theorem normalizeType_kinds :
  (forall type subType,
      (normalizeType type subType = MT_error <-> type = "error") /\
      (normalizeType type subType = MT_warning <->
         type = "info" /\ subType = Some "warning") /\
      (normalizeType type subType = MT_info <->
         type <> "error" /\ ~ (type = "info" /\ subType = Some "warning"))) /\
  (forall data,
      map m_type (mapMessages data) =
      map (fun r => normalizeType (r_type r) (r_subType r)) data).
Proof.
  split.
  - intros type subType. unfold normalizeType.
    destruct (String.eqb_spec type "error") as [He|He];
      [subst; simpl; intuition congruence|].
    destruct (String.eqb_spec type "info") as [Hi|Hi]; simpl;
      [|intuition congruence].
    destruct subType as [s|]; simpl; [|intuition congruence].
    destruct (String.eqb_spec s "warning"); subst; simpl; intuition congruence.
  - intros data. unfold mapMessages. rewrite map_map. reflexivity.
Qed.

(* ------------------------------------------------------------------ *)
(** ** Sitemap depth bound *)

(** Claim C4: a call of [extractUrlsFromSitemap] whose depth exceeds
    [MAX_DEPTH] returns an empty URL list without failing (and without
    fetching anything: the result does not depend on the environment). *)
Theorem extract_beyond_max_depth :
  forall env fuel sitemapUrl depth,
    (MAX_DEPTH < depth)%nat ->
    extract_aux env fuel sitemapUrl depth = Ok [] /\
    extractUrlsFromSitemap env sitemapUrl depth = Ok [].
Proof.
  intros env fuel sitemapUrl depth Hd.
  unfold extractUrlsFromSitemap.
  assert (Hb : (MAX_DEPTH <? depth)%nat = true) by (apply Nat.ltb_lt; exact Hd).
  split; destruct fuel; simpl; rewrite Hb; reflexivity.
Qed.

Lemma extract_beyond_max_depth_witness :
  (MAX_DEPTH < 4)%nat /\
  extract_aux Fixture.ex_env 7 Fixture.nested_url 4 = Ok [] /\
  extractUrlsFromSitemap Fixture.ex_env Fixture.nested_url 4 = Ok [].
Proof.
  split; [unfold MAX_DEPTH; lia|].
  apply (extract_beyond_max_depth Fixture.ex_env 7 Fixture.nested_url 4).
  unfold MAX_DEPTH; lia.
Defined.

(* ------------------------------------------------------------------ *)
(** ** Page classification *)

Module PageTask.
Import Pipeline.

Lemma MessageType_eqb_spec a b : MessageType_eqb a b = true <-> a = b.
Proof. destruct a, b; simpl; split; congruence. Qed.

Lemma count_type_pos t msgs :
  (0 < count_type t msgs)%nat <-> Exists (fun m => m_type m = t) msgs.
Proof.
  unfold count_type. induction msgs as [|m msgs IH]; simpl.
  - split; [lia | intros H; inversion H].
  - destruct (MessageType_eqb (m_type m) t) eqn:E; simpl.
    + apply MessageType_eqb_spec in E. split; [intros _; now constructor | lia].
    + rewrite IH, Exists_cons. split; [intros H; now right|].
      intros [H|H]; [|assumption].
      apply MessageType_eqb_spec in H. congruence.
Qed.

Lemma classify_spec msgs :
  (classify msgs = PS_errors <-> Exists (fun m => m_type m = MT_error) msgs) /\
  (classify msgs = PS_warnings <->
     ~ Exists (fun m => m_type m = MT_error) msgs /\
     Exists (fun m => m_type m = MT_warning) msgs) /\
  (classify msgs = PS_clean <->
     ~ Exists (fun m => m_type m = MT_error) msgs /\
     ~ Exists (fun m => m_type m = MT_warning) msgs).
Proof.
  unfold classify.
  rewrite <- !(count_type_pos _ msgs).
  destruct (0 <? count_type MT_error msgs)%nat eqn:E1;
  [apply Nat.ltb_lt in E1 | apply Nat.ltb_ge in E1];
  (destruct (0 <? count_type MT_warning msgs)%nat eqn:E2;
   [apply Nat.ltb_lt in E2 | apply Nat.ltb_ge in E2]);
  repeat split; intros; try discriminate; try lia; try reflexivity; intuition lia.
Qed.

Lemma nth_error_list_set {A} (l : list A) i x :
  (i < List.length l)%nat -> nth_error (list_set l i x) i = Some x.
Proof.
  revert i; induction l as [|y l IH]; intros i Hi; simpl in *; [lia|].
  destruct i; simpl; [reflexivity|]. apply IH; lia.
Qed.

Lemma list_set_length {A} (l : list A) i x :
  List.length (list_set l i x) = List.length l.
Proof.
  revert i; induction l as [|y l IH]; intros [|i]; simpl; auto.
Qed.

Lemma start_from_next w i source resolved :
  aborted (w_job w) = false -> nth_error (w_urls w) i = Some (source, resolved) ->
  start_from i w = with_pc (emitW w (Ev_page_fetching i resolved)) (PC_task_await i).
Proof.
  intros Hab Hn. unfold start_from.
  assert (Hlt : (i < List.length (w_urls w))%nat)
    by (apply nth_error_Some; rewrite Hn; discriminate).
  destruct (List.length (w_urls w) - i) eqn:E; [lia|].
  simpl. rewrite Hab, Hn. reflexivity.
Qed.

Lemma start_from_end w i :
  List.length (w_urls w) = i -> start_from i w = finalize w.
Proof. intros H. unfold start_from. rewrite H, Nat.sub_diag. reflexivity. Qed.

(** Claim C7: when the checker call of page [i] succeeds with [msgs], the
    result written at [i] has those messages and status errors iff an
    error-kind message is present, else warnings iff a warning-kind message
    is present, else clean; when it fails with description [m], the result
    has status failed, no messages and error message [m].  Either way the
    job is not ended, the task goes on to its sleep, and the following step
    starts the next page (or, after the last page, emits the summary). *)
Theorem page_task_outcome :
  forall env w i source resolved,
    nth_error (w_urls w) i = Some (source, resolved) ->
    (i < List.length (w_results w))%nat ->
    let w' := task_finish env i w in
    (forall msgs, validatePage env resolved = Ok msgs ->
       nth_error (w_results w') i =
         Some (Some (mkResult resolved source msgs (classify msgs) None)) /\
       (classify msgs = PS_errors <-> Exists (fun m => m_type m = MT_error) msgs) /\
       (classify msgs = PS_warnings <->
          ~ Exists (fun m => m_type m = MT_error) msgs /\
          Exists (fun m => m_type m = MT_warning) msgs) /\
       (classify msgs = PS_clean <->
          ~ Exists (fun m => m_type m = MT_error) msgs /\
          ~ Exists (fun m => m_type m = MT_warning) msgs)) /\
    (forall m, validatePage env resolved = Err m ->
       nth_error (w_results w') i =
         Some (Some (mkResult resolved source [] PS_failed (Some m)))) /\
    w_pc w' = PC_task_sleep i /\ done (w_job w') = done (w_job w) /\
    w_urls w' = w_urls w /\
    (aborted (w_job w) = false ->
       (forall source' resolved',
          nth_error (w_urls w) (S i) = Some (source', resolved') ->
          w_pc (pipe_step env w') = PC_task_await (S i) /\
          buffered (w_job (pipe_step env w')) =
            buffered (w_job w') ++ [Ev_page_fetching (S i) resolved']) /\
       (S i = List.length (w_urls w) ->
          w_pc (pipe_step env w') = PC_finished /\
          exists summary, buffered (w_job (pipe_step env w')) =
            buffered (w_job w') ++ [Ev_done summary; Ev_stream_end])).
Proof.
  intros env w i source resolved Hnth Hi. cbv zeta.
  unfold task_finish; rewrite Hnth.
  destruct (validatePage env resolved) as [msgs|m] eqn:Hv; cbn -[pipe_step].
  all: split; [intros msgs' Hx; (discriminate Hx || (injection Hx as <-;
               split; [apply nth_error_list_set; exact Hi | apply classify_spec]))|].
  all: split; [intros m' Hx; (discriminate Hx || (injection Hx as <-;
               apply nth_error_list_set; exact Hi))|].
  all: split; [reflexivity|]; split; [reflexivity|]; split; [reflexivity|].
  all: intros Hab; split; [intros source' resolved' Hn | intros Hlen].
  all: cbn [pipe_step w_pc].
  all: try (erewrite start_from_next by (cbn; eassumption); split; reflexivity).
  all: rewrite start_from_end by (cbn; symmetry; exact Hlen);
       split; [reflexivity|]; eexists; cbn; rewrite <- app_assoc; reflexivity.
Qed.

Lemma page_task_outcome_witness :
  let w := exec Fixture.ex_env [Tick] (init (Fixture.sub "xml_two")) in
  nth_error (w_urls w) 0 = Some (Fixture.page_a, Fixture.page_a) /\
  (0 < List.length (w_results w))%nat /\
  w_pc (task_finish Fixture.ex_env 0 w) = PC_task_sleep 0 /\
  done (w_job (task_finish Fixture.ex_env 0 w)) = done (w_job w).
Proof.
  cbv zeta.
  assert (H1 : nth_error (w_urls (exec Fixture.ex_env [Tick] (init (Fixture.sub "xml_two")))) 0
               = Some (Fixture.page_a, Fixture.page_a)) by (vm_compute; reflexivity).
  assert (H2 : (0 < List.length (w_results
                 (exec Fixture.ex_env [Tick] (init (Fixture.sub "xml_two")))))%nat)
    by (vm_compute; lia).
  pose proof (page_task_outcome Fixture.ex_env _ 0 _ _ H1 H2) as P. cbv zeta in P.
  destruct P as (_ & _ & Hpc & Hdone & _).
  split; [exact H1|]. split; [exact H2|]. split; [exact Hpc | exact Hdone].
Defined.

End PageTask.

(* ------------------------------------------------------------------ *)
(** ** URL rebasing *)

Module UrlFacts.
Import Url.

Lemma resolve_parsed_special loc base :
  special_url loc -> special_url base ->
  let r := resolve_parsed loc base in
  scheme r = scheme base /\ host r = host base /\ port r = port base /\
  username r = username loc /\ password r = password loc /\
  path r = path loc /\ query r = query loc /\ fragment r = fragment loc.
Proof.
  intros (Hls & Hlf & (hl & Hlh & Hlne) & Hlo & Hlp)
         (Hbs & Hbf & (hb & Hbh & Hbne) & Hbo & Hbp).
  cbv zeta. unfold resolve_parsed, set_protocol.
  rewrite Hls, Hbs. simpl.
  assert (Hbf' : String.eqb (scheme base) "file" = false) by (apply String.eqb_neq; exact Hbf).
  assert (Hlf' : String.eqb (scheme loc) "file" = false) by (apply String.eqb_neq; exact Hlf).
  rewrite Hbf', andb_false_r, Hlf'. simpl.
  set (u1 := if opt_nat_eqb (port loc) (default_port (scheme base))
             then with_port (with_scheme loc (scheme base)) None
             else with_scheme loc (scheme base)).
  assert (Hu1 : scheme u1 = scheme base /\ host u1 = host loc /\ opaque_path u1 = false /\
                username u1 = username loc /\ password u1 = password loc /\
                path u1 = path loc /\ query u1 = query loc /\ fragment u1 = fragment loc)
    by (unfold u1; destruct (opt_nat_eqb (port loc) (default_port (scheme base)));
        simpl; repeat split; auto).
  destruct Hu1 as (Hs1 & Hh1 & Ho1 & Hus1 & Hpw1 & Hp1 & Hq1 & Hf1).
  unfold set_hostname. rewrite Ho1, Hs1, Hbf', Hbs. unfold hostname. rewrite Hbh.
  assert (Hbne' : String.eqb hb "" = false) by (apply String.eqb_neq; exact Hbne).
  rewrite Hbne'. simpl.
  unfold set_port. simpl. rewrite Hs1, Hbf', Hbne'.
  destruct (port base) as [n|] eqn:Hpb; simpl.
  - simpl in Hbp. rewrite Hbp. simpl.
    repeat split; simpl; congruence.
  - repeat split; simpl; congruence.
Qed.
Lemma setters_keep_path u s h p :
  path (set_port (set_hostname (set_protocol u s) h) p) = path u /\
  query (set_port (set_hostname (set_protocol u s) h) p) = query u.
Proof.
  unfold set_port, set_hostname, set_protocol.
  repeat (match goal with
          | |- context [if ?c then _ else _] => destruct c
          | |- context [match ?x with Some _ => _ | None => _ end] => destruct x
          end; simpl); auto.
Qed.

Lemma setters_keep_scheme u s h p :
  is_special (scheme u) <> is_special s ->
  scheme (set_port (set_hostname (set_protocol u s) h) p) = scheme u.
Proof.
  intros Hne.
  assert (Hp : set_protocol u s = u).
  { unfold set_protocol.
    destruct (is_special (scheme u)), (is_special s); simpl; congruence. }
  rewrite Hp. unfold set_port, set_hostname.
  repeat (match goal with
          | |- context [if ?c then _ else _] => destruct c
          | |- context [match ?x with Some _ => _ | None => _ end] => destruct x
          end; simpl); auto.
Qed.

(** Claim C8 (as amended): if either input does not parse,
    [resolveUrlToBase] fails; otherwise the result keeps [locUrl]'s path
    and query; it takes [baseUrl]'s scheme, host and port when both have a
    special scheme other than [file]; and when exactly one of the two
    schemes is special the protocol assignment is ignored, so the result
    keeps [locUrl]'s scheme. *)
Theorem resolveUrlToBase_spec :
  forall url_parse locUrl baseUrl,
    match url_parse locUrl, url_parse baseUrl with
    | Some loc, Some base =>
        exists r, resolveUrlToBase url_parse locUrl baseUrl = Ok r /\
          path r = path loc /\ query r = query loc /\
          (special_url loc -> special_url base ->
             scheme r = scheme base /\ host r = host base /\ port r = port base) /\
          (is_special (scheme loc) <> is_special (scheme base) -> scheme r = scheme loc)
    | _, _ => exists m, resolveUrlToBase url_parse locUrl baseUrl = Err m
    end.
Proof.
  intros url_parse locUrl baseUrl. unfold resolveUrlToBase.
  destruct (url_parse locUrl) as [loc|]; [|eexists; reflexivity].
  destruct (url_parse baseUrl) as [base|]; [|eexists; reflexivity].
  exists (resolve_parsed loc base). split; [reflexivity|].
  unfold resolve_parsed.
  destruct (setters_keep_path loc (scheme base) (hostname base) (port base)) as [Hp Hq].
  split; [exact Hp|]. split; [exact Hq|]. split.
  - intros Hl Hb. destruct (resolve_parsed_special loc base Hl Hb) as (? & ? & ? & _).
    repeat split; assumption.
  - apply setters_keep_scheme.
Qed.

Lemma resolveUrlToBase_spec_witness :
  exists r, resolveUrlToBase
              (fun s => if String.eqb s "https://example.com/a?x=1"
                        then Some (mkURL "https" "" "" (Some "example.com") None false "/a"
                                         (Some "x=1") None)
                        else if String.eqb s "http://localhost:3000/"
                        then Some (mkURL "http" "" "" (Some "localhost") (Some 3000) false "/"
                                         None None)
                        else None)
              "https://example.com/a?x=1" "http://localhost:3000/" = Ok r /\
            scheme r = "http" /\ host r = Some "localhost" /\ port r = Some 3000 /\
            path r = "/a" /\ query r = Some "x=1".
Proof.
  pose proof (resolveUrlToBase_spec
              (fun s => if String.eqb s "https://example.com/a?x=1"
                        then Some (mkURL "https" "" "" (Some "example.com") None false "/a"
                                         (Some "x=1") None)
                        else if String.eqb s "http://localhost:3000/"
                        then Some (mkURL "http" "" "" (Some "localhost") (Some 3000) false "/"
                                         None None)
                        else None)
              "https://example.com/a?x=1" "http://localhost:3000/") as P.
  simpl in P. destruct P as (r & Hr & Hp & Hq & Hs & _).
  exists r. destruct Hs as (Hsc & Hh & Hpo).
  - repeat split; try discriminate; try (eexists; split; [reflexivity|discriminate]).
  - repeat split; try discriminate; try (eexists; split; [reflexivity|discriminate]).
  - repeat split; assumption.
Defined.

(** Claim C8 as stated fails: a [locUrl] with a non-special scheme keeps
    it, since the [protocol] setter refuses to switch between special and
    non-special schemes ([foo://example.com/a] rebased on
    [https://b.example/] gives [foo://b.example/a]). *)
Lemma resolveUrlToBase_counterexample :
  ~ (forall url_parse locUrl baseUrl loc base,
        url_parse locUrl = Some loc -> url_parse baseUrl = Some base ->
        parsed_url loc -> parsed_url base ->
        exists r, resolveUrlToBase url_parse locUrl baseUrl = Ok r /\
          scheme r = scheme base /\ host r = host base /\ port r = port base /\
          path r = path loc /\ query r = query loc).
Proof.
  intros H.
  set (loc := mkURL "foo" "" "" (Some "example.com") None false "/a" None None).
  set (base := mkURL "https" "" "" (Some "b.example") None false "/" None None).
  destruct (H (fun s => if String.eqb s "foo://example.com/a" then Some loc
                        else if String.eqb s "https://b.example/" then Some base
                        else None)
              "foo://example.com/a" "https://b.example/" loc base)
    as (r & Hr & Hs & _).
  - reflexivity.
  - reflexivity.
  - right. reflexivity.
  - left. repeat split; try discriminate.
    eexists; split; [reflexivity | discriminate].
  - simpl in Hr. injection Hr as <-. vm_compute in Hs. discriminate Hs.
Qed.
End UrlFacts.

(* ------------------------------------------------------------------ *)
(** ** Pipeline scenarios *)

Module Scenarios.
Import Pipeline Fixture.


(** Claim C2 as stated fails: two abort requests on the same job append
    two [cancelled] events. *)
Lemma double_abort_counterexample :
  List.length (filter is_cancelled
    (buffered (w_job (exec ex_env [Tick; Abort; Abort] (init (sub "xml_one")))))) = 2.
Proof. vm_compute. reflexivity. Qed.

(** Claim C3 as stated fails: a root index whose only nested sitemap is
    itself an index gets a [fetching] event for it but neither [fetched]
    nor [fetch_error], and the nested index is not resolved (its own
    nested sitemap, a urlset with one page, is never fetched); the job
    ends with [sitemap_error]. *)
Lemma nested_index_counterexample :
  buffered (w_job (exec ex_env [Tick; Tick] (init (sub "xml_index")))) =
  [Ev_sitemapindex_resolving 1 [nested_url];
   Ev_sitemapindex_fetching nested_url;
   Ev_sitemapindex_resolved 0;
   Ev_sitemap_error "No <url> entries found in the sitemap XML.";
   Ev_stream_end] /\
  extractUrlsFromSitemap ex_env nested_url 0 = Ok [page_a].
Proof. split; vm_compute; reflexivity. Qed.

(** Claim C5 on the code: two pages, abort during the sleep after the
    first page; the pipeline still emits [done] with a summary counting
    one page although two URLs were resolved. *)
Lemma summary_after_abort_run :
  let w := exec ex_env [Tick; Tick; Abort; Tick] (init (sub "xml_two")) in
  In (Ev_sitemap_done 2 [page_a; page_b]) (buffered (w_job w)) /\
  In Ev_cancelled (buffered (w_job w)) /\
  In (Ev_done (mkSummary 1 0 0 1 0 0 0 0 "https://example.com")) (buffered (w_job w)).
Proof. vm_compute. split; [|split]; repeat (first [left; reflexivity | right]). Qed.

(** Claim C6 as stated fails: a submission asking for concurrency 4 and no
    inter-task delay still runs one task at a time and sleeps 1000 ms. *)
Lemma config_ignored_counterexample :
  let s := mkSubmission "xml_two" (Some "") (Some 4) (Some 0) in
  List.length (filter is_page_fetching
     (buffered (w_job (exec ex_env [Tick] (init s))))) = 1 /\
  w_sleeps (exec ex_env [Tick; Tick] (init s)) = [1000] /\
  w_sleeps (exec ex_env [Tick; Tick] (init s)) <> [0].
Proof. vm_compute. split; [reflexivity|]. split; [reflexivity|]. discriminate. Qed.

(** Claim C9 as stated fails: after an abort the job is done, but the page
    in flight still appends its events; an observer attaching then gets a
    replay whose last event is [page_done], not a terminal event. *)
Lemma late_attach_counterexample :
  done (w_job (exec ex_env [Tick; Abort; Tick] (init (sub "xml_one")))) = true /\
  written (w_rs (exec ex_env [Tick; Abort; Tick; Attach 7] (init (sub "xml_one")))) 7 =
  [Ev_sitemap_done 1 [page_a]; Ev_page_fetching 0 page_a;
   Ev_cancelled; Ev_stream_end;
   Ev_page_validating 0 page_a; Ev_page_done 0 page_a PS_clean [] None].
Proof. split; vm_compute; reflexivity. Qed.

End Scenarios.

(* ------------------------------------------------------------------ *)
(** ** Every pipeline step [grows] the world *)

Module Steps.
Import Pipeline.

Lemma grows_refl w : grows w w.
Proof.
  repeat split; auto.
  - exists []. rewrite app_nil_r. split; [reflexivity | constructor].
  - exists 0. simpl. rewrite app_nil_r. reflexivity.
Qed.

Lemma grows_trans w1 w2 w3 : grows w1 w2 -> grows w2 w3 -> grows w1 w3.
Proof.
  intros (L1 & A1 & P1 & (s1 & B1 & F1) & D1 & (k1 & S1) & R1)
         (L2 & A2 & P2 & (s2 & B2 & F2) & D2 & (k2 & S2) & R2).
  refine (conj _ (conj _ (conj _ (conj _ (conj _ (conj _ _)))))).
  - congruence.
  - congruence.
  - congruence.
  - exists (s1 ++ s2). split; [rewrite B2, B1, app_assoc; reflexivity|].
    intros Ha. apply Forall_app. split; [auto|]. apply F2. congruence.
  - intros Hd. destruct (D2 Hd) as [Hd2|Hin]; [|now right].
    destruct (D1 Hd2) as [Hd1|Hin1]; [now left|].
    right. rewrite B2. apply in_or_app. now left.
  - exists (k1 + k2). rewrite S2, S1, repeat_app, app_assoc. reflexivity.
  - intros o Ho. destruct (R1 o Ho) as [W1 E1]. rewrite <- L1 in Ho.
    destruct (R2 o Ho) as [W2 E2]. split; congruence.
Qed.

Lemma fold_deliver_other e ls rs o :
  ~ In o ls ->
  written (fold_left (deliver e) ls rs) o = written rs o /\
  ended (fold_left (deliver e) ls rs) o = ended rs o.
Proof.
  revert rs. induction ls as [|o' ls IH]; intros rs Ho; simpl; [auto|].
  simpl in Ho. destruct (IH (deliver e rs o')) as [W E]; [tauto|].
  rewrite W, E. unfold deliver.
  destruct (ended rs o'); [auto|]. simpl.
  destruct (Nat.eqb_spec o o'); [subst; tauto | auto].
Qed.

Lemma grows_emitW w e :
  (aborted (w_job w) = true -> is_page_fetching e = false) -> grows w (emitW w e).
Proof.
  intros He.
  refine (conj eq_refl (conj eq_refl (conj eq_refl (conj _ (conj _ (conj _ _)))))).
  - exists [e]. split; [reflexivity|]. intros Ha. constructor; auto.
  - simpl. intros Hd. now left.
  - exists 0. simpl. rewrite app_nil_r. reflexivity.
  - intros o Ho. apply fold_deliver_other; assumption.
Qed.

Lemma grows_same w w' :
  buffered (w_job w') = buffered (w_job w) -> listeners (w_job w') = listeners (w_job w) ->
  done (w_job w') = done (w_job w) -> aborted (w_job w') = aborted (w_job w) ->
  w_rs w' = w_rs w -> w_params w' = w_params w ->
  w_sleeps w' = w_sleeps w -> grows w w'.
Proof.
  intros B L D A R P S. pose proof (grows_refl w) as G.
  unfold grows in *. rewrite B, L, D, A, R, P, S. exact G.
Qed.

Lemma grows_sleep w w' k :
  buffered (w_job w') = buffered (w_job w) -> listeners (w_job w') = listeners (w_job w) ->
  done (w_job w') = done (w_job w) -> aborted (w_job w') = aborted (w_job w) ->
  w_rs w' = w_rs w -> w_params w' = w_params w ->
  w_sleeps w' = w_sleeps w ++ repeat INTER_TASK_DELAY_MS k -> grows w w'.
Proof.
  intros B L D A R P S. pose proof (grows_refl w) as G.
  unfold grows in *. rewrite B, L, D, A, R, P, S.
  destruct G as (G1 & G2 & G3 & G4 & G5 & _ & G7).
  refine (conj G1 (conj G2 (conj G3 (conj G4 (conj G5 (conj _ G7)))))).
  exists k. reflexivity.
Qed.

Lemma grows_with_pc w pc : grows w (with_pc w pc).
Proof. apply grows_same; reflexivity. Qed.

Lemma grows_endJobW w : grows w (endJobW w).
Proof.
  pose proof (grows_emitW w Ev_stream_end (fun _ => eq_refl)) as G.
  destruct G as (L & A & P & B & _ & S & R).
  refine (conj L (conj A (conj P (conj B (conj _ (conj S R)))))).
  intros _. right. simpl. apply in_or_app. right. now left.
Qed.

Lemma grows_emit_all w es :
  (aborted (w_job w) = true -> Forall (fun e => is_page_fetching e = false) es) ->
  grows w (emit_all w es).
Proof.
  revert w. induction es as [|e es IH]; intros w Hes; simpl; [apply grows_refl|].
  apply grows_trans with (emitW w e).
  - apply grows_emitW. intros Ha. specialize (Hes Ha). inversion Hes; assumption.
  - apply IH. simpl. intros Ha. specialize (Hes Ha). inversion Hes; assumption.
Qed.

Lemma grows_sleep_after w w3 pc :
  grows w w3 ->
  grows w (mkWorld (w_job w3) (w_rs w3) pc (w_params w3) (w_urls w3) (w_results w3)
                   (w_base w3) (w_sleeps w3 ++ [INTER_TASK_DELAY_MS])).
Proof.
  intros G. eapply grows_trans; [exact G|].
  apply (grows_sleep _ _ 1); reflexivity.
Qed.

Lemma grows_finalize w : grows w (finalize w).
Proof.
  unfold finalize.
  eapply grows_trans; [|apply grows_with_pc].
  eapply grows_trans; [|apply grows_endJobW].
  eapply grows_trans; [|apply grows_emitW; reflexivity].
  apply grows_same; reflexivity.
Qed.

Lemma grows_start_tasks fuel i w : grows w (start_tasks fuel i w).
Proof.
  revert i w. induction fuel as [|fuel IH]; intros i w; simpl; [apply grows_finalize|].
  destruct (aborted (w_job w)) eqn:Ha; [apply IH|].
  destruct (nth_error (w_urls w) i) as [[source resolved]|]; [|apply grows_finalize].
  eapply grows_trans; [|apply grows_with_pc].
  apply grows_emitW. congruence.
Qed.

Lemma grows_start_from i w : grows w (start_from i w).
Proof. apply grows_start_tasks. Qed.

Section WithEnv.
Variable env : Env.

Lemma grows_after_resolve raw w : grows w (after_resolve env raw w).
Proof.
  unfold after_resolve. destruct raw as [|raw0 raws].
  - eapply grows_trans; [|apply grows_with_pc].
    eapply grows_trans; [|apply grows_endJobW].
    apply grows_emitW; reflexivity.
  - destruct (bind _ _) as [[b us]|m]; [|apply grows_with_pc].
    eapply grows_trans; [|apply grows_start_from].
    apply grows_trans with (emitW w (Ev_sitemap_done (List.length us) (map snd us)));
      [apply grows_emitW; reflexivity|].
    apply grows_same; reflexivity.
Qed.

Lemma grows_index_next rest acc w : grows w (index_next env rest acc w).
Proof.
  unfold index_next. destruct rest as [|u rest'].
  - eapply grows_trans; [|apply grows_after_resolve].
    apply grows_emitW; reflexivity.
  - eapply grows_trans; [|apply grows_with_pc].
    apply grows_emitW; reflexivity.
Qed.

Lemma grows_task_finish i w : grows w (task_finish env i w).
Proof.
  unfold task_finish.
  destruct (nth_error (w_urls w) i) as [[source resolved]|]; [|apply grows_with_pc].
  destruct (validatePage env resolved) as [msgs|m]; cbv beta iota.
  - apply grows_sleep_after.
    eapply grows_trans; [|apply grows_emitW; reflexivity].
    eapply grows_trans; [apply (grows_emitW w (Ev_page_validating i resolved)); reflexivity|].
    apply grows_same; reflexivity.
  - apply grows_sleep_after.
    eapply grows_trans; [|apply grows_emitW; reflexivity].
    apply grows_same; reflexivity.
Qed.

Lemma grows_pipe_step w : grows w (pipe_step env w).
Proof.
  unfold pipe_step. destruct (w_pc w) as [|u rest acc|i|i|].
  - destruct (parseUrlsFromXml env (p_xml (w_params w))) as [[l|l]|m].
    + apply grows_after_resolve.
    + eapply grows_trans; [|apply grows_index_next].
      apply grows_emitW; reflexivity.
    + eapply grows_trans; [|apply grows_with_pc].
      eapply grows_trans; [|apply grows_endJobW].
      apply grows_emitW; reflexivity.
  - destruct (nested_outcome env u) as [l evs] eqn:Ho.
    eapply grows_trans; [|apply grows_index_next].
    apply grows_emit_all. intros _.
    unfold nested_outcome in Ho.
    destruct (fetch_text env u) as [text|m];
      [destruct (parseUrlsFromXml env text) as [[l'|l']|m]|];
      injection Ho as <- <-; repeat constructor.
  - apply grows_task_finish.
  - apply grows_start_from.
  - apply grows_refl.
Qed.

End WithEnv.

End Steps.

(* ------------------------------------------------------------------ *)
(** ** The abort and stream routes, and runs of requests *)

Module Runs.
Import Pipeline Steps.

Lemma abort_act env w :
  let w' := act env Abort w in
  buffered (w_job w') = buffered (w_job w) ++ [Ev_cancelled; Ev_stream_end] /\
  aborted (w_job w') = true /\ done (w_job w') = true /\
  listeners (w_job w') = listeners (w_job w) /\
  w_sleeps w' = w_sleeps w /\ w_params w' = w_params w /\ w_pc w' = w_pc w /\
  (forall o, ~ In o (listeners (w_job w)) ->
     written (w_rs w') o = written (w_rs w) o /\ ended (w_rs w') o = ended (w_rs w) o).
Proof.
  cbv zeta. simpl.
  refine (conj _ (conj eq_refl (conj eq_refl (conj eq_refl (conj eq_refl
            (conj eq_refl (conj eq_refl _))))))).
  - rewrite <- app_assoc. reflexivity.
  - intros o Ho.
    destruct (fold_deliver_other Ev_cancelled (listeners (w_job w)) (w_rs w) o Ho) as [W1 E1].
    destruct (fold_deliver_other Ev_stream_end (listeners (w_job w))
                (fold_left (deliver Ev_cancelled) (listeners (w_job w)) (w_rs w)) o Ho)
      as [W2 E2].
    split; congruence.
Qed.

Lemma attach_act env o w :
  let w' := act env (Attach o) w in
  buffered (w_job w') = buffered (w_job w) /\
  aborted (w_job w') = aborted (w_job w) /\ done (w_job w') = done (w_job w) /\
  w_sleeps w' = w_sleeps w /\ w_params w' = w_params w /\ w_pc w' = w_pc w /\
  listeners (w_job w') =
    (if done (w_job w) then listeners (w_job w) else listeners (w_job w) ++ [o]) /\
  written (w_rs w') o = written (w_rs w) o ++ buffered (w_job w) /\
  ended (w_rs w') o = (if done (w_job w) then true else ended (w_rs w) o) /\
  (forall o', o' <> o ->
     written (w_rs w') o' = written (w_rs w) o' /\ ended (w_rs w') o' = ended (w_rs w) o').
Proof.
  cbv zeta. simpl. unfold stream_route.
  destruct (done (w_job w)) eqn:Hd; simpl; rewrite Nat.eqb_refl.
  all: repeat (split; [first [reflexivity | assumption]|]).
  all: intros o' Ho'; apply Nat.eqb_neq in Ho'; rewrite Ho'; split; reflexivity.
Qed.


Lemma count_cancelled_app l1 l2 :
  List.length (filter is_cancelled (l1 ++ l2)) =
  List.length (filter is_cancelled l1) + List.length (filter is_cancelled l2).
Proof. rewrite filter_app, length_app. reflexivity. Qed.

(** Claim C2 (as amended): the abort route has no idempotence guard; every
    call on an existing job sets [aborted] and [done] and appends exactly
    [cancelled] then [stream_end], so [k] calls append [k] [cancelled]
    events. *)
Theorem abort_appends_each_time :
  forall env w k,
    buffered (w_job (exec env (repeat Abort k) w)) =
      buffered (w_job w) ++ List.concat (repeat [Ev_cancelled; Ev_stream_end] k) /\
    List.length (filter is_cancelled (buffered (w_job (exec env (repeat Abort k) w)))) =
      List.length (filter is_cancelled (buffered (w_job w))) + k /\
    aborted (w_job (exec env (repeat Abort (S k)) w)) = true /\
    done (w_job (exec env (repeat Abort (S k)) w)) = true.
Proof.
  intros env w k.
  assert (HB : forall k w, buffered (w_job (exec env (repeat Abort k) w)) =
            buffered (w_job w) ++ List.concat (repeat [Ev_cancelled; Ev_stream_end] k)).
  { induction k0 as [|k0 IH]; intros w0; cbn [repeat exec List.concat];
      [rewrite app_nil_r; reflexivity|].
    rewrite IH. destruct (abort_act env w0) as [B _]. rewrite B.
    rewrite <- app_assoc. reflexivity. }
  split; [apply HB|]. split.
  - rewrite HB, count_cancelled_app. f_equal.
    induction k as [|k IH]; simpl; auto.
  - assert (HA : forall k w, aborted (w_job (exec env (repeat Abort (S k)) w)) = true /\
                             done (w_job (exec env (repeat Abort (S k)) w)) = true).
    { induction k0 as [|k0 IH]; intros w0.
      - simpl. destruct (abort_act env w0) as (_ & A & D & _). auto.
      - change (exec env (repeat Abort (S (S k0))) w0)
          with (exec env (repeat Abort (S k0)) (act env Abort w0)). apply IH. }
    apply HA.
Qed.


Lemma sleeps_fixed env acts w :
  Forall (fun ms => ms = INTER_TASK_DELAY_MS) (w_sleeps w) ->
  Forall (fun ms => ms = INTER_TASK_DELAY_MS) (w_sleeps (exec env acts w)).
Proof.
  revert w. induction acts as [|a acts IH]; intros w Hw; cbn [exec]; [exact Hw|].
  apply IH. destruct a as [| |o].
  - destruct (grows_pipe_step env w) as (_ & _ & _ & _ & _ & (k & Hk) & _).
    change (act env Tick w) with (pipe_step env w). rewrite Hk.
    apply Forall_app. split; [exact Hw|]. apply Forall_forall.
    intros x Hx. apply repeat_spec in Hx. exact Hx.
  - destruct (abort_act env w) as (_ & _ & _ & _ & S & _). rewrite S. exact Hw.
  - destruct (attach_act env o w) as (_ & _ & _ & S & _). rewrite S. exact Hw.
Qed.

(** Claim C6 (as amended): [runValidation] reads only [xml] and [base]
    from the submission, so the [concurrency] and [interTaskDelayMs]
    fields change nothing in any run; the limiter is the fixed [pLimit(1)]
    and every pause a task takes before releasing its slot is the fixed
    [sleep(1000)]. *)
Theorem submission_options_ignored :
  forall env s concurrency interTaskDelayMs acts,
    exec env acts (init s) =
      exec env acts (init (mkSubmission (s_xml s) (s_base s) concurrency interTaskDelayMs)) /\
    Forall (fun ms => ms = 1000) (w_sleeps (exec env acts (init s))).
Proof.
  intros env s c d acts. split; [reflexivity|].
  apply sleeps_fixed. constructor.
Qed.

Lemma fresh_observer env acts w o :
  ~ In (Attach o) acts -> ~ In o (listeners (w_job w)) ->
  ~ In o (listeners (w_job (exec env acts w))) /\
  written (w_rs (exec env acts w)) o = written (w_rs w) o /\
  ended (w_rs (exec env acts w)) o = ended (w_rs w) o.
Proof.
  revert w. induction acts as [|a acts IH]; intros w Hacts Ho; cbn [exec]; [auto|].
  assert (Hrest : ~ In (Attach o) acts) by (intros H; apply Hacts; now right).
  assert (Hstep : ~ In o (listeners (w_job (act env a w))) /\
                  written (w_rs (act env a w)) o = written (w_rs w) o /\
                  ended (w_rs (act env a w)) o = ended (w_rs w) o).
  { destruct a as [| |o'].
    - change (act env Tick w) with (pipe_step env w).
      destruct (grows_pipe_step env w) as (L & _ & _ & _ & _ & _ & R).
      rewrite L. destruct (R o Ho) as [W E]. auto.
    - destruct (abort_act env w) as (_ & _ & _ & L & _ & _ & _ & R).
      rewrite L. destruct (R o Ho) as [W E]. auto.
    - assert (Hne : o <> o') by (intros <-; apply Hacts; now left).
      destruct (attach_act env o' w) as (_ & _ & _ & _ & _ & _ & L & _ & _ & R).
      destruct (R o Hne) as [W E]. rewrite L. split; [|auto].
      destruct (done (w_job w)); [exact Ho|].
      intros Hin. apply in_app_or in Hin. destruct Hin as [Hin|[Hin|[]]]; [tauto|congruence]. }
  destruct Hstep as (Ho' & W & E).
  destruct (IH (act env a w) Hrest Ho') as (L2 & W2 & E2).
  split; [exact L2|]. split; congruence.
Qed.

Lemma done_has_stream_end env acts w :
  (done (w_job w) = true -> In Ev_stream_end (buffered (w_job w))) ->
  done (w_job (exec env acts w)) = true ->
  In Ev_stream_end (buffered (w_job (exec env acts w))).
Proof.
  revert w. induction acts as [|a acts IH]; intros w Hinv; cbn [exec]; [exact Hinv|].
  apply IH. destruct a as [| |o].
  - change (act env Tick w) with (pipe_step env w).
    destruct (grows_pipe_step env w) as (_ & _ & _ & (s0 & B & _) & D & _).
    intros Hd. destruct (D Hd) as [Hd0|Hin]; [|exact Hin].
    rewrite B. apply in_or_app. left. exact (Hinv Hd0).
  - destruct (abort_act env w) as (B & _). intros _. rewrite B.
    apply in_or_app. right. right. now left.
  - destruct (attach_act env o w) as (B & _ & D & _). rewrite B, D. exact Hinv.
Qed.

(** Claim C9 (as amended): an observer attached while the job is done
    (and never attached before) receives exactly the events buffered at
    that moment, in order; its response is ended and it is not registered
    as a listener, so no later event reaches it.  The replayed sequence
    contains [stream_end], though not necessarily as its last event. *)
Theorem late_observer_replay_only :
  forall env s acts o acts',
    ~ In (Attach o) acts -> ~ In (Attach o) acts' ->
    done (w_job (exec env acts (init s))) = true ->
    let w := exec env acts (init s) in
    let w' := exec env (Attach o :: acts') w in
    written (w_rs w') o = buffered (w_job w) /\
    ended (w_rs (act env (Attach o) w)) o = true /\
    ~ In o (listeners (w_job w')) /\
    In Ev_stream_end (buffered (w_job w)).
Proof.
  intros env s acts o acts' Hacts Hacts' Hd. cbv zeta.
  destruct (fresh_observer env acts (init s) o Hacts (fun H => H)) as (L0 & W0 & E0).
  destruct (attach_act env o (exec env acts (init s)))
    as (_ & _ & _ & _ & _ & _ & L1 & W1 & E1 & _).
  rewrite Hd in L1, E1. rewrite W0 in W1.
  change (written (w_rs (init s)) o) with (@nil Event) in W1.
  rewrite app_nil_l in W1.
  rewrite <- L1 in L0.
  destruct (fresh_observer env acts' _ o Hacts' L0) as (L2 & W2 & _).
  change (exec env (Attach o :: acts') (exec env acts (init s)))
    with (exec env acts' (act env (Attach o) (exec env acts (init s)))).
  rewrite W2. split; [exact W1|]. split; [exact E1|]. split; [exact L2|].
  apply (done_has_stream_end env acts (init s)); [discriminate | exact Hd].
Qed.

Lemma late_observer_replay_only_witness :
  ~ In (Attach 7) [Tick; Tick; Tick] /\ ~ In (Attach 7) [Tick; Abort] /\
  done (w_job (exec Fixture.ex_env [Tick; Tick; Tick] (init (Fixture.sub "xml_one")))) = true /\
  written (w_rs (exec Fixture.ex_env [Attach 7; Tick; Abort]
            (exec Fixture.ex_env [Tick; Tick; Tick] (init (Fixture.sub "xml_one"))))) 7 =
  buffered (w_job (exec Fixture.ex_env [Tick; Tick; Tick] (init (Fixture.sub "xml_one")))).
Proof.
  assert (H1 : ~ In (Attach 7) [Tick; Tick; Tick]) by (simpl; intuition discriminate).
  assert (H2 : ~ In (Attach 7) [Tick; Abort]) by (simpl; intuition discriminate).
  assert (H3 : done (w_job (exec Fixture.ex_env [Tick; Tick; Tick]
                             (init (Fixture.sub "xml_one")))) = true)
    by (vm_compute; reflexivity).
  split; [exact H1|]. split; [exact H2|]. split; [exact H3|].
  exact (proj1 (late_observer_replay_only Fixture.ex_env _ _ 7 _ H1 H2 H3)).
Defined.

End Runs.

Module IndexLoop.
Import Pipeline.

Lemma emit_all_app w es1 es2 :
  emit_all w (es1 ++ es2) = emit_all (emit_all w es1) es2.
Proof. revert w. induction es1 as [|e es1 IH]; intros w; [reflexivity|]. apply IH. Qed.

Lemma emit_all_with_pc w p es :
  emit_all (with_pc w p) es = with_pc (emit_all w es) p.
Proof.
  revert w. induction es as [|e es IH]; intros w; [reflexivity|].
  cbn [emit_all]. rewrite <- IH. reflexivity.
Qed.

Lemma emit_all_pc w es : w_pc (emit_all w es) = w_pc w.
Proof.
  revert w. induction es as [|e es IH]; intros w; [reflexivity|].
  cbn [emit_all]. rewrite IH. reflexivity.
Qed.

Lemma with_pc_eta w p : w_pc w = p -> with_pc w p = w.
Proof. intros <-. destruct w; reflexivity. Qed.

Section WithEnv.
Variable env : Env.

Lemma index_loop :
  forall rest u acc w,
    w_pc w = PC_index_fetch u rest acc ->
    exists pc,
      exec env (repeat Tick (S (List.length rest))) w =
      after_resolve env (acc ++ flat_map (fun v => fst (nested_outcome env v)) (u :: rest))
        (with_pc (emit_all w (snd (nested_outcome env u) ++
                   flat_map (fun v => Ev_sitemapindex_fetching v :: snd (nested_outcome env v)) rest ++
                   [Ev_sitemapindex_resolved
                      (List.length (acc ++ flat_map (fun v => fst (nested_outcome env v)) (u :: rest)))]))
                 pc).
Proof.
  induction rest as [|v rest IH]; intros u acc w Hpc.
  - exists (PC_index_fetch u [] acc).
    cbn [List.length repeat exec].
    change (act env Tick w) with (pipe_step env w).
    unfold pipe_step. rewrite Hpc.
    cbn [flat_map]. rewrite app_nil_r, app_nil_l.
    destruct (nested_outcome env u) as [l evs] eqn:Hn. cbn [fst snd index_next].
    rewrite emit_all_app. rewrite with_pc_eta by (rewrite !emit_all_pc; exact Hpc).
    reflexivity.
  - replace (exec env (repeat Tick (S (List.length (v :: rest)))) w)
      with (exec env (repeat Tick (S (List.length rest))) (pipe_step env w)) by reflexivity.
    unfold pipe_step. rewrite Hpc.
    destruct (nested_outcome env u) as [l evs] eqn:Hn. cbn [index_next].
    destruct (IH v (acc ++ l)
                 (with_pc (emitW (emit_all w evs) (Ev_sitemapindex_fetching v))
                          (PC_index_fetch v rest (acc ++ l))) eq_refl) as [pc E].
    exists pc. rewrite E. clear E.
    rewrite emit_all_with_pc. cbn [with_pc w_job w_rs w_params w_urls w_results w_base w_sleeps].
    change (emitW (emit_all w evs) (Ev_sitemapindex_fetching v))
      with (emit_all (emit_all w evs) [Ev_sitemapindex_fetching v]).
    rewrite <- !emit_all_app.
    assert (Hacc : (acc ++ l) ++ flat_map (fun v0 => fst (nested_outcome env v0)) (v :: rest) =
                   acc ++ flat_map (fun v0 => fst (nested_outcome env v0)) (u :: v :: rest)).
    { cbn [flat_map]. rewrite Hn. cbn [fst]. rewrite <- app_assoc. reflexivity. }
    rewrite Hacc. cbn [snd]. cbn [flat_map].
    rewrite <- !app_assoc. reflexivity.
Qed.

End WithEnv.

(** Claim C3 (as amended): when the submitted XML is a sitemap index with
    locations [l], resolution is a single loop over [l] and recurses
    nowhere.  It emits [sitemapindex_resolving], then for each nested
    location [u] in order a [sitemapindex_fetching] followed by that
    location's own outcome, then [sitemapindex_resolved] with the number
    of collected URLs, and continues with the concatenation of the URLs
    collected from each nested location.  A nested location yields
    [sitemapindex_fetch_error] when its fetch or its parse fails, its URLs
    with [sitemapindex_fetched] when it is a URL set, and, when it is
    itself a sitemap index, no event and no URL at all. *)
Theorem sitemapindex_one_level :
  forall env w l,
    w_pc w = PC_resolve ->
    parseUrlsFromXml env (p_xml (w_params w)) = Ok (PR_sitemapindex l) ->
    (exists pc,
       exec env (repeat Tick (S (List.length l))) w =
       after_resolve env (flat_map (fun v => fst (nested_outcome env v)) l)
         (with_pc (emit_all w (Ev_sitemapindex_resolving (List.length l) l ::
                     flat_map (fun v => Ev_sitemapindex_fetching v :: snd (nested_outcome env v)) l ++
                     [Ev_sitemapindex_resolved
                        (List.length (flat_map (fun v => fst (nested_outcome env v)) l))]))
                  pc)) /\
    (forall u,
       (forall m, fetch_text env u = Err m ->
          nested_outcome env u = ([], [Ev_sitemapindex_fetch_error u m])) /\
       (forall text m, fetch_text env u = Ok text -> parseUrlsFromXml env text = Err m ->
          nested_outcome env u = ([], [Ev_sitemapindex_fetch_error u m])) /\
       (forall text urls, fetch_text env u = Ok text ->
          parseUrlsFromXml env text = Ok (PR_urls urls) ->
          nested_outcome env u = (urls, [Ev_sitemapindex_fetched u (List.length urls)])) /\
       (forall text locs', fetch_text env u = Ok text ->
          parseUrlsFromXml env text = Ok (PR_sitemapindex locs') ->
          nested_outcome env u = ([], []))).
Proof.
  intros env w l Hpc Hparse. split.
  - destruct l as [|u rest].
    + exists PC_resolve.
      cbn [List.length repeat exec].
      change (act env Tick w) with (pipe_step env w).
      unfold pipe_step. rewrite Hpc, Hparse. cbn [index_next flat_map List.length app].
      rewrite with_pc_eta by (rewrite emit_all_pc; exact Hpc). reflexivity.
    + replace (exec env (repeat Tick (S (List.length (u :: rest)))) w)
        with (exec env (repeat Tick (S (List.length rest))) (pipe_step env w)) by reflexivity.
      unfold pipe_step. rewrite Hpc, Hparse. cbn [index_next].
      destruct (index_loop env rest u []
                  (with_pc (emitW (emitW w (Ev_sitemapindex_resolving (List.length (u :: rest)) (u :: rest)))
                                  (Ev_sitemapindex_fetching u))
                           (PC_index_fetch u rest [])) eq_refl) as [pc E].
      exists pc. rewrite E. clear E. rewrite app_nil_l.
      rewrite emit_all_with_pc. cbn [with_pc w_job w_rs w_params w_urls w_results w_base w_sleeps].
      change (emitW (emitW w (Ev_sitemapindex_resolving (List.length (u :: rest)) (u :: rest)))
                    (Ev_sitemapindex_fetching u))
        with (emit_all w [Ev_sitemapindex_resolving (List.length (u :: rest)) (u :: rest);
                          Ev_sitemapindex_fetching u]).
      rewrite <- emit_all_app. cbn [flat_map app]. rewrite <- !app_assoc. reflexivity.
  - intros u. unfold nested_outcome.
    refine (conj _ (conj _ (conj _ _))).
    + intros m Hf. rewrite Hf. reflexivity.
    + intros text m Hf Hp. rewrite Hf, Hp. reflexivity.
    + intros text urls Hf Hp. rewrite Hf, Hp. reflexivity.
    + intros text locs' Hf Hp. rewrite Hf, Hp. reflexivity.
Qed.

Lemma sitemapindex_one_level_witness :
  w_pc (init (Fixture.sub "xml_index")) = PC_resolve /\
  parseUrlsFromXml Fixture.ex_env "xml_index" = Ok (PR_sitemapindex [Fixture.nested_url]) /\
  nested_outcome Fixture.ex_env Fixture.nested_url = ([], []).
Proof.
  assert (H1 : w_pc (init (Fixture.sub "xml_index")) = PC_resolve) by reflexivity.
  assert (H2 : parseUrlsFromXml Fixture.ex_env (p_xml (w_params (init (Fixture.sub "xml_index"))))
               = Ok (PR_sitemapindex [Fixture.nested_url])) by (vm_compute; reflexivity).
  split; [exact H1|]. split; [exact H2|].
  destruct (sitemapindex_one_level Fixture.ex_env _ _ H1 H2) as [_ Hout].
  destruct (Hout Fixture.nested_url) as (_ & _ & _ & Hidx).
  apply (Hidx "xml_nested_index" [Fixture.deep_url]); vm_compute; reflexivity.
Defined.

End IndexLoop.

(* ------------------------------------------------------------------ *)
(** ** Report helpers *)

Module ReportFacts.
Import Report.
Local Open Scope string_scope.

Lemma sapp_assoc (a b c : string) : (a ++ b) ++ c = a ++ (b ++ c).
Proof. induction a as [|x a IH]; simpl; [reflexivity | now rewrite IH]. Qed.

Lemma sapp_nil_r (a : string) : a ++ "" = a.
Proof. induction a as [|x a IH]; simpl; [reflexivity | now rewrite IH]. Qed.

Lemma sapp_cancel (p x y : string) : p ++ x = p ++ y -> x = y.
Proof. induction p as [|c p IH]; simpl; [auto | intros H; injection H; auto]. Qed.

Lemma slength_app (a b : string) : String.length (a ++ b) = String.length a + String.length b.
Proof. induction a as [|x a IH]; simpl; [reflexivity | now rewrite IH]. Qed.

Lemma ascii_list_app (a b : string) :
  list_ascii_of_string (a ++ b) = (list_ascii_of_string a ++ list_ascii_of_string b)%list.
Proof. induction a as [|x a IH]; simpl; [reflexivity | now rewrite IH]. Qed.

Lemma replace_all_app c r s1 s2 :
  replace_all c r (s1 ++ s2) = replace_all c r s1 ++ replace_all c r s2.
Proof.
  induction s1 as [|a s1 IH]; simpl; [reflexivity|].
  destruct (Ascii.eqb a c); rewrite IH; [symmetry; apply sapp_assoc | reflexivity].
Qed.

Lemma replace_all_other c r a : a <> c -> replace_all c r (String a "") = String a "".
Proof. intros H. simpl. apply Ascii.eqb_neq in H. now rewrite H. Qed.


Lemma esc_char_cases a :
  (a = "&"%char /\ esc_char a = "&amp;") \/ (a = "<"%char /\ esc_char a = "&lt;") \/
  (a = ">"%char /\ esc_char a = "&gt;") \/ (a = dquote /\ esc_char a = "&quot;") \/
  (a = "'"%char /\ esc_char a = "&#39;") \/
  (a <> "&"%char /\ a <> "<"%char /\ a <> ">"%char /\ a <> dquote /\ a <> "'"%char /\
   esc_char a = String a "").
Proof.
  unfold esc_char.
  destruct (Ascii.eqb_spec a "&"); [left; auto|].
  destruct (Ascii.eqb_spec a "<"); [right; left; auto|].
  destruct (Ascii.eqb_spec a ">"); [right; right; left; auto|].
  destruct (Ascii.eqb_spec a dquote); [right; right; right; left; auto|].
  destruct (Ascii.eqb_spec a "'"); [right; right; right; right; left; auto|].
  right; right; right; right; right; auto 7.
Qed.

Lemma escape_cons a s : escapeHtml (String a s) = esc_char a ++ escapeHtml s.
Proof.
  unfold escapeHtml. change (String a s) with (String a "" ++ s).
  rewrite !replace_all_app. f_equal.
  destruct (esc_char_cases a) as [(-> & ->)|[(-> & ->)|[(-> & ->)|[(-> & ->)|[(-> & ->)|
           (H1 & H2 & H3 & H4 & H5 & ->)]]]]]; try reflexivity.
  rewrite (replace_all_other _ _ _ H1), (replace_all_other _ _ _ H2),
          (replace_all_other _ _ _ H3), (replace_all_other _ _ _ H4),
          (replace_all_other _ _ _ H5).
  reflexivity.
Qed.

Lemma esc_char_head a x b y : esc_char a ++ x = esc_char b ++ y -> a = b.
Proof.
  intros H.
  destruct (esc_char_cases a) as [(-> & Ea)|[(-> & Ea)|[(-> & Ea)|[(-> & Ea)|[(-> & Ea)|
           (A1 & A2 & A3 & A4 & A5 & Ea)]]]]];
  destruct (esc_char_cases b) as [(-> & Eb)|[(-> & Eb)|[(-> & Eb)|[(-> & Eb)|[(-> & Eb)|
           (B1 & B2 & B3 & B4 & B5 & Eb)]]]]];
  rewrite Ea in H; try rewrite Eb in H; simpl in H; inversion H; subst; try reflexivity; try congruence.
Qed.

Lemma esc_char_nonempty a : exists c t, esc_char a = String c t.
Proof.
  destruct (esc_char_cases a) as [(_ & E)|[(_ & E)|[(_ & E)|[(_ & E)|[(_ & E)|
           (_ & _ & _ & _ & _ & E)]]]]]; rewrite E; eauto.
Qed.

(** [escapeHtml] output never contains [<], [>], a double quote or a
    single quote. *)
Theorem escapeHtml_no_markup :
  forall str c,
    In c (list_ascii_of_string (escapeHtml str)) ->
    c <> "<"%char /\ c <> ">"%char /\ c <> dquote /\ c <> "'"%char.
Proof.
  induction str as [|a str IH]; intros c Hc; [destruct Hc|].
  rewrite escape_cons, ascii_list_app in Hc. apply in_app_or in Hc.
  destruct Hc as [Hc|Hc]; [|auto].
  destruct (esc_char_cases a) as [(-> & E)|[(-> & E)|[(-> & E)|[(-> & E)|[(-> & E)|
           (A1 & A2 & A3 & A4 & A5 & E)]]]]]; rewrite E in Hc; simpl in Hc.
  all: repeat match goal with
              | H : _ \/ _ |- _ => destruct H as [<-|H]
              | H : False |- _ => destruct H
              end.
  all: try (subst; repeat split; intros Heq; inversion Heq; fail).
  subst. auto.
Qed.

Lemma escapeHtml_no_markup_witness :
  In "&"%char (list_ascii_of_string (escapeHtml "<b>")) /\
  "&"%char <> "<"%char /\ "&"%char <> ">"%char /\ "&"%char <> dquote /\ "&"%char <> "'"%char.
Proof.
  assert (H : In "&"%char (list_ascii_of_string (escapeHtml "<b>")))
    by (vm_compute; left; reflexivity).
  split; [exact H|]. exact (escapeHtml_no_markup "<b>" "&"%char H).
Defined.

(** [escapeHtml] is injective: different strings are escaped differently,
    so the escaped text determines the original. *)
Theorem escapeHtml_injective :
  forall s1 s2, escapeHtml s1 = escapeHtml s2 -> s1 = s2.
Proof.
  induction s1 as [|a s1 IH]; intros [|b s2] H.
  - reflexivity.
  - rewrite escape_cons in H. destruct (esc_char_nonempty b) as (c & t & E).
    rewrite E in H. discriminate.
  - rewrite escape_cons in H. destruct (esc_char_nonempty a) as (c & t & E).
    rewrite E in H. discriminate.
  - rewrite !escape_cons in H.
    pose proof (esc_char_head _ _ _ _ H) as <-.
    apply sapp_cancel in H. f_equal. auto.
Qed.

Lemma escapeHtml_injective_witness :
  escapeHtml "<a href='x'>&" = escapeHtml "<a href='x'>&" /\
  "<a href='x'>&" = "<a href='x'>&".
Proof.
  split; [reflexivity|].
  exact (escapeHtml_injective "<a href='x'>&" "<a href='x'>&" eq_refl).
Defined.

Lemma substring0_length n s :
  String.length (substring 0 n s) = Nat.min n (String.length s).
Proof.
  revert n; induction s as [|c s IH]; intros [|n]; simpl; auto.
Qed.

Lemma substring0_ge n s : String.length s <= n -> substring 0 n s = s.
Proof.
  revert n; induction s as [|c s IH]; intros [|n] H; simpl in *; auto; try lia.
  rewrite IH; [reflexivity | lia].
Qed.

Lemma substring_after_prefix p x m :
  substring (String.length p) m (p ++ x) = substring 0 m x.
Proof. induction p as [|c p IH]; simpl; auto. Qed.

Lemma prefix_self p x : String.prefix p (p ++ x) = true.
Proof.
  induction p as [|c p IH]; simpl; [destruct x; reflexivity|].
  destruct (ascii_dec c c); [exact IH | congruence].
Qed.

Lemma non_slash_run_app host rest :
  Forall (fun c => c <> "/"%char) (list_ascii_of_string host) ->
  non_slash_run (host ++ rest) = String.length host + non_slash_run rest.
Proof.
  induction host as [|c host IH]; simpl; intros H; auto.
  inversion H; subst. apply Ascii.eqb_neq in H2. rewrite H2, IH; auto.
Qed.

Lemma non_slash_run_rest rest :
  (rest = "" \/ exists r, rest = String "/" r) -> non_slash_run rest = 0.
Proof. intros [->|[r ->]]; reflexivity. Qed.

Lemma shortUrl_nonempty url : 0 < String.length (shortUrl url).
Proof.
  unfold shortUrl.
  destruct (match origin_match url with
            | Some n => substring n (String.length url - n) url
            | None => url end) as [|c t]; simpl; lia.
Qed.

(** The sidebar label of a page ([urlDisplay] in [renderSidebarItem]) is never
    empty and never longer than 40 characters, and it is the short URL itself
    whenever that fits in 40 characters. *)
Theorem urlDisplay_bounded url :
  0 < String.length (urlDisplay url) <= 40 /\
  (String.length (shortUrl url) <= 40 -> urlDisplay url = shortUrl url).
Proof.
  unfold urlDisplay; cbv zeta. pose proof (shortUrl_nonempty url) as Hne.
  destruct (Nat.ltb_spec 40 (String.length (shortUrl url))) as [Hlt|Hge].
  - split; [|intros; lia].
    rewrite slength_app, substring0_length. change (String.length "...") with 3. lia.
  - split; [lia | reflexivity].
Qed.

(** For a URL made of the scheme [http://] or [https://], a non-empty host
    without [/], and a rest that is empty or starts with [/], the short URL
    shown in the sidebar is the rest, and [/] when the rest is empty. *)
Theorem shortUrl_strips_origin scheme host rest :
  (scheme = "http://" \/ scheme = "https://") ->
  0 < String.length host ->
  Forall (fun c => c <> "/"%char) (list_ascii_of_string host) ->
  (rest = "" \/ exists r, rest = String "/" r) ->
  shortUrl (scheme ++ host ++ rest) = (if String.eqb rest "" then "/" else rest).
Proof.
  intros Hs Hh Hslash Hrest.
  assert (Hrun : forall p, non_slash_run
                   (substring (String.length p) (String.length (p ++ host ++ rest))
                              (p ++ host ++ rest)) = String.length host).
  { intros p. rewrite substring_after_prefix, substring0_ge.
    - rewrite non_slash_run_app, non_slash_run_rest; auto.
    - rewrite !slength_app. lia. }
  assert (Hm : origin_match (scheme ++ host ++ rest) =
               Some (String.length scheme + String.length host)).
  { unfold origin_match.
    destruct Hs as [->| ->].
    - change (String.prefix "https://" ("http://" ++ host ++ rest)) with false.
      cbv zeta. rewrite prefix_self, Hrun.
      destruct (Nat.ltb_spec 0 (String.length host)); [reflexivity | lia].
    - cbv zeta. rewrite prefix_self, Hrun.
      destruct (Nat.ltb_spec 0 (String.length host)); [reflexivity | lia]. }
  unfold shortUrl. rewrite Hm.
  replace (scheme ++ host ++ rest) with ((scheme ++ host) ++ rest) by apply sapp_assoc.
  replace (String.length scheme + String.length host) with (String.length (scheme ++ host))
    by apply slength_app.
  rewrite substring_after_prefix, substring0_ge by (rewrite !slength_app; lia).
  reflexivity.
Qed.

Lemma shortUrl_strips_origin_witness :
  ("https://" = "http://" \/ "https://" = "https://") /\
  0 < String.length "example.com" /\
  Forall (fun c => c <> "/"%char) (list_ascii_of_string "example.com") /\
  ("/docs" = "" \/ exists r, "/docs" = String "/" r) /\
  shortUrl ("https://" ++ "example.com" ++ "/docs") = "/docs".
Proof.
  assert (H1 : "https://" = "http://" \/ "https://" = "https://") by (right; reflexivity).
  assert (H2 : 0 < String.length "example.com") by (simpl; lia).
  assert (H3 : Forall (fun c => c <> "/"%char) (list_ascii_of_string "example.com"))
    by (repeat constructor; discriminate).
  assert (H4 : "/docs" = "" \/ exists r, "/docs" = String "/" r) by (right; eexists; reflexivity).
  refine (conj H1 (conj H2 (conj H3 (conj H4 _)))).
  exact (shortUrl_strips_origin "https://" "example.com" "/docs" H1 H2 H3 H4).
Defined.

End ReportFacts.

(* ------------------------------------------------------------------ *)
(** ** The unique-issue table of [printUniqueErrors] *)

Module UniqueFacts.
Import Report.

Section WithTrim.
Variable js_trim : string -> string.



Lemma fold_flat_map {A B C} (f : C -> B -> C) (g : A -> list B) l a :
  fold_left (fun acc x => fold_left f (g x) acc) l a = fold_left f (flat_map g l) a.
Proof.
  revert a; induction l as [|x l IH]; intros a; simpl; [reflexivity|].
  rewrite IH, fold_left_app. reflexivity.
Qed.

Lemma unique_issues_flat results :
  unique_issues js_trim results = fold_left (bump js_trim) (flat_map pr_messages results) [].
Proof. unfold unique_issues. apply fold_flat_map. Qed.

Lemma bump_keys_in s h m :
  In h (map fst s) -> map fst (seen_bump s h m) = map fst s.
Proof.
  induction s as [|[h' [m' c']] s IH]; simpl; [tauto|].
  destruct (String.eqb_spec h' h); simpl; [reflexivity|].
  intros [->|H]; [congruence|]. rewrite IH; auto.
Qed.

Lemma bump_keys_new s h m :
  ~ In h (map fst s) -> map fst (seen_bump s h m) = map fst s ++ [h].
Proof.
  induction s as [|[h' [m' c']] s IH]; simpl; [reflexivity|].
  destruct (String.eqb_spec h' h); simpl; [tauto|].
  intros H. rewrite IH; auto.
Qed.

Lemma bump_other s h m h' e :
  h' <> h -> (In (h', e) (seen_bump s h m) <-> In (h', e) s).
Proof.
  intros Hne. induction s as [|[h0 [m0 c0]] s IH]; simpl.
  - split; [intros [E|[]]; congruence | tauto].
  - destruct (String.eqb_spec h0 h); simpl.
    + subst. split; intros [E|E]; auto; inversion E; congruence.
    + rewrite IH. tauto.
Qed.

Lemma bump_same s h m m' c' :
  NoDup (map fst s) -> In (h, (m', c')) (seen_bump s h m) ->
  (exists c, In (h, (m', c)) s /\ c' = S c) \/ (~ In h (map fst s) /\ m' = m /\ c' = 1).
Proof.
  induction s as [|[h0 [m0 c0]] s IH]; simpl; intros Hnd Hin.
  - destruct Hin as [E|[]]. inversion E; subst. right; auto.
  - inversion Hnd as [|? ? Hnot Hnd']; subst.
    destruct (String.eqb_spec h0 h) as [->|Hne]; simpl in Hin.
    + destruct Hin as [E|Hin].
      * inversion E; subst. left. exists c0. auto.
      * exfalso. apply Hnot. apply (in_map fst) in Hin. exact Hin.
    + destruct Hin as [E|Hin]; [inversion E; congruence|].
      destruct (IH Hnd' Hin) as [(c & Hc & ->)|(Hn & -> & ->)].
      * left. exists c. auto.
      * right. split; [|auto]. intros [E|E]; congruence.
Qed.

Lemma fold_bump_snoc l x :
  fold_left (bump js_trim) (l ++ [x]) [] = bump js_trim (fold_left (bump js_trim) l []) x.
Proof. rewrite fold_left_app. reflexivity. Qed.

Lemma count_hash_snoc h l x :
  count_hash js_trim h (l ++ [x]) =
  count_hash js_trim h l + (if String.eqb (issue_hash js_trim x) h then 1 else 0).
Proof.
  unfold count_hash. rewrite filter_app, length_app. simpl.
  destruct (String.eqb (issue_hash js_trim x) h); reflexivity.
Qed.

Lemma count_hash_zero h l :
  (forall m, In m l -> issue_hash js_trim m <> h) -> count_hash js_trim h l = 0.
Proof.
  intros H. unfold count_hash.
  induction l as [|x l IH]; simpl; [reflexivity|].
  destruct (String.eqb_spec (issue_hash js_trim x) h) as [E|_].
  - exfalso. exact (H x (or_introl eq_refl) E).
  - apply IH. intros m Hm. apply H. simpl. auto.
Qed.


Lemma seen_inv_fold l : seen_inv js_trim l (fold_left (bump js_trim) l []).
Proof.
  induction l as [|x l IH] using rev_ind.
  - split; [constructor|]. split; [|simpl; tauto].
    intros h; simpl; split; [tauto|]. intros (m & [] & _).
  - rewrite fold_bump_snoc. destruct IH as (Hnd & Hkeys & Hent).
    set (seen := fold_left (bump js_trim) l []) in *. unfold bump.
    set (hx := issue_hash js_trim x).
    destruct (in_dec string_dec hx (map fst seen)) as [Hin|Hnin].
    + split; [rewrite bump_keys_in; auto|]. split.
      * intros h. rewrite bump_keys_in by auto. rewrite Hkeys. split.
        -- intros (m & Hm & Hh). exists m. split; [apply in_or_app; auto|auto].
        -- intros (m & Hm & Hh). apply in_app_or in Hm. destruct Hm as [Hm|[<-|[]]].
           ++ eauto.
           ++ apply Hkeys. subst h. exact Hin.
      * intros h m c Hc. destruct (string_dec h hx) as [->|Hne].
        -- destruct (bump_same _ _ _ _ _ Hnd Hc) as [(c0 & Hc0 & ->)|(Hn & _)]; [|contradiction].
           destruct (Hent _ _ _ Hc0) as (-> & pre & post & El & Eh & Hpre).
           split.
           ++ rewrite count_hash_snoc. unfold hx. rewrite String.eqb_refl. lia.
           ++ exists pre, (post ++ [x]). split; [rewrite El, <- app_assoc; reflexivity|auto].
        -- apply (bump_other seen hx x h (m, c) Hne) in Hc.
           destruct (Hent _ _ _ Hc) as (-> & pre & post & El & Eh & Hpre).
           split.
           ++ rewrite count_hash_snoc. apply String.eqb_neq in Hne.
              unfold hx in Hne. rewrite (proj2 (String.eqb_neq _ _)); [lia|].
              intros E. apply String.eqb_neq in Hne. congruence.
           ++ exists pre, (post ++ [x]). split; [rewrite El, <- app_assoc; reflexivity|auto].
    + split.
      { rewrite bump_keys_new by auto. apply NoDup_app; auto.
        - constructor; [intros []|constructor].
        - intros h H1 [<-|[]]. contradiction. }
      split.
      * intros h. rewrite bump_keys_new by auto. rewrite in_app_iff, Hkeys. split.
        -- intros [(m & Hm & Hh)|[<-|[]]].
           ++ exists m. split; [apply in_or_app; auto|auto].
           ++ exists x. split; [apply in_or_app; simpl; auto|reflexivity].
        -- intros (m & Hm & Hh). apply in_app_or in Hm. destruct Hm as [Hm|[<-|[]]].
           ++ left. eauto.
           ++ right. left. exact Hh.
      * intros h m c Hc. destruct (string_dec h hx) as [->|Hne].
        -- destruct (bump_same _ _ _ _ _ Hnd Hc) as [(c0 & Hc0 & _)|(_ & -> & ->)].
           ++ exfalso. apply Hnin. apply (in_map fst) in Hc0. exact Hc0.
           ++ assert (Hnone : forall m, In m l -> issue_hash js_trim m <> hx).
              { intros m Hm E. apply Hnin, Hkeys. eauto. }
              split.
              ** rewrite count_hash_snoc, count_hash_zero by exact Hnone.
                 unfold hx. rewrite String.eqb_refl. reflexivity.
              ** exists l, []. split; [reflexivity|]. split; [reflexivity|].
                 apply Forall_forall. exact Hnone.
        -- apply (bump_other seen hx x h (m, c) Hne) in Hc.
           destruct (Hent _ _ _ Hc) as (-> & pre & post & El & Eh & Hpre).
           split.
           ++ rewrite count_hash_snoc.
              rewrite (proj2 (String.eqb_neq _ _)); [lia|].
              intros E. apply Hne. symmetry. exact E.
           ++ exists pre, (post ++ [x]). split; [rewrite El, <- app_assoc; reflexivity|auto].
Qed.

Lemma fold_sum_shift (l : list (string * (W3CMessage * nat))) a :
  fold_left (fun s v => s + snd (snd v)) l a = a + fold_left (fun s v => s + snd (snd v)) l 0.
Proof.
  revert a; induction l as [|v l IH]; intros a; simpl; [lia|].
  rewrite (IH (a + _)), (IH (snd (snd v))). lia.
Qed.

Lemma total_bump s h m : total_occurrences (seen_bump s h m) = S (total_occurrences s).
Proof.
  unfold total_occurrences.
  induction s as [|[h' [m' c']] s IH]; simpl; [reflexivity|].
  destruct (String.eqb h' h); simpl.
  - rewrite (fold_sum_shift _ (S c')), (fold_sum_shift _ c'). lia.
  - rewrite (fold_sum_shift s c'), (fold_sum_shift (seen_bump s h m) c'), IH. lia.
Qed.

End WithTrim.

(** [printUniqueErrors]: the occurrence counts of the table add up to the
    number of messages of all pages ([totalAll]), every hash has one row,
    and the table is empty (the function returns without printing) exactly
    when no page has a message. *)
Theorem unique_issues_totals js_trim results :
  let seen := unique_issues js_trim results in
  total_occurrences seen = List.length (flat_map pr_messages results) /\
  NoDup (map fst seen) /\
  (seen = [] <-> flat_map pr_messages results = []).
Proof.
  cbv zeta. rewrite unique_issues_flat.
  assert (Htot : forall l, total_occurrences (fold_left (bump js_trim) l []) = List.length l).
  { intros l. induction l as [|x l IH] using rev_ind; [reflexivity|].
    rewrite fold_bump_snoc, length_app, Nat.add_1_r, <- IH.
    exact (total_bump (fold_left (bump js_trim) l []) (issue_hash js_trim x) x). }
  split; [apply Htot|]. split; [apply seen_inv_fold|].
  split.
  - intros E. pose proof (Htot (flat_map pr_messages results)) as T. rewrite E in T.
    destruct (flat_map pr_messages results); [reflexivity | discriminate].
  - intros ->. reflexivity.
Qed.

(** [printUniqueErrors]: a hash has a row exactly when some message of some
    page has that hash ([type::trimmed text]). *)
Theorem unique_issues_keys js_trim results h :
  In h (map fst (unique_issues js_trim results)) <->
  exists r m, In r results /\ In m (pr_messages r) /\ issue_hash js_trim m = h.
Proof.
  rewrite unique_issues_flat.
  destruct (seen_inv_fold js_trim (flat_map pr_messages results)) as (_ & Hk & _).
  rewrite Hk. split.
  - intros (m & Hm & Hh). apply in_flat_map in Hm. destruct Hm as (r & Hr & Hm). eauto.
  - intros (r & m & Hr & Hm & Hh). exists m. split; [apply in_flat_map; eauto | exact Hh].
Qed.

(** [printUniqueErrors]: the row of a hash counts the messages of all pages
    with that hash, and shows the first of them in page and message order. *)
Theorem unique_issues_row js_trim results h m c :
  In (h, (m, c)) (unique_issues js_trim results) ->
  c = count_hash js_trim h (flat_map pr_messages results) /\
  exists pre post,
    flat_map pr_messages results = pre ++ m :: post /\ issue_hash js_trim m = h /\
    Forall (fun x => issue_hash js_trim x <> h) pre.
Proof.
  rewrite unique_issues_flat. intros Hin.
  destruct (seen_inv_fold js_trim (flat_map pr_messages results)) as (_ & _ & He).
  exact (He _ _ _ Hin).
Qed.

Lemma unique_issues_row_witness :
  In ("error::x", (mkMsg MT_error "x" None, 2))
     (unique_issues (fun s => s)
        [mkResult "u1" "u1" [mkMsg MT_error "x" None] PS_errors None;
         mkResult "u2" "u2" [mkMsg MT_info "y" None; mkMsg MT_error "x" None] PS_errors None]) /\
  2 = count_hash (fun s => s) "error::x"
        (flat_map pr_messages
           [mkResult "u1" "u1" [mkMsg MT_error "x" None] PS_errors None;
            mkResult "u2" "u2" [mkMsg MT_info "y" None; mkMsg MT_error "x" None] PS_errors None]).
Proof.
  assert (H : In ("error::x", (mkMsg MT_error "x" None, 2))
     (unique_issues (fun s => s)
        [mkResult "u1" "u1" [mkMsg MT_error "x" None] PS_errors None;
         mkResult "u2" "u2" [mkMsg MT_info "y" None; mkMsg MT_error "x" None] PS_errors None]))
    by (vm_compute; left; reflexivity).
  exact (conj H (proj1 (unique_issues_row _ _ _ _ _ H))).
Defined.

End UniqueFacts.

(* ------------------------------------------------------------------ *)
(** ** [extractUrlsFromSitemap] *)

Module ExtractFacts.

Lemma locs_nonempty entries : Forall (fun u => 0 < String.length u) (locs entries).
Proof.
  induction entries as [|[[s|t]|] es IH]; simpl; auto.
  destruct (Nat.ltb_spec 0 (String.length s)); auto.
Qed.

Lemma extract_aux_nonempty env fuel :
  forall url d urls, extract_aux env fuel url d = Ok urls ->
  Forall (fun u => 0 < String.length u) urls.
Proof.
  induction fuel as [|f IH]; intros url d urls H; simpl in H.
  - destruct (MAX_DEPTH <? d)%nat; inversion H; auto.
  - destruct (MAX_DEPTH <? d)%nat; [inversion H; auto|].
    destruct (fetch_text env url) as [t|m]; simpl in H; [|discriminate].
    destruct (px_sitemapindex (parse env t)) as [entries|].
    + assert (Hacc : Forall (fun u => 0 < String.length u) (@nil string)) by constructor.
      revert H Hacc. generalize (@nil string) as acc. revert urls.
      induction entries as [|[[loc|loc]|] es IHes]; intros urls acc H Hacc.
      * inversion H; subst; auto.
      * destruct (0 <? String.length loc)%nat; [|eapply IHes; eauto].
        destruct (extract_aux env f loc (S d)) as [nested|m] eqn:E; simpl in H; [|discriminate].
        eapply IHes; [exact H|]. apply Forall_app. split; [exact Hacc | eapply IH; eauto].
      * destruct (extract_aux env f loc (S d)) as [nested|m] eqn:E; simpl in H; [|discriminate].
        eapply IHes; [exact H|]. apply Forall_app. split; [exact Hacc | eapply IH; eauto].
      * eapply IHes; eauto.
    + destruct (px_urlset (parse env t)); inversion H. apply locs_nonempty.
Qed.

(** [extractUrlsFromSitemap] never returns an empty URL: every URL it
    collects, from a urlset or from any nested sitemap, is non-empty. *)
Theorem extract_urls_nonempty env url d urls :
  extractUrlsFromSitemap env url d = Ok urls ->
  Forall (fun u => 0 < String.length u) urls.
Proof. apply extract_aux_nonempty. Qed.

Lemma extract_urls_nonempty_witness :
  extractUrlsFromSitemap Fixture.ex_env Fixture.nested_url 0 = Ok [Fixture.page_a] /\
  Forall (fun u => 0 < String.length u) [Fixture.page_a].
Proof.
  assert (H : extractUrlsFromSitemap Fixture.ex_env Fixture.nested_url 0 = Ok [Fixture.page_a])
    by (vm_compute; reflexivity).
  exact (conj H (extract_urls_nonempty _ _ _ _ H)).
Defined.

(** In a sitemap index, one nested sitemap that fails (its fetch fails, or
    its format is unrecognised) makes the whole extraction fail: the URLs
    gathered from the other entries are not returned.  This holds for every
    entry that passes [if (entry.loc)], a non-empty string or another truthy
    value such as the object of an attributed [<loc>]. *)
Theorem extract_nested_failure_propagates env f url d text entries e loc m :
  (MAX_DEPTH <? d)%nat = false ->
  fetch_text env url = Ok text ->
  px_sitemapindex (parse env text) = Some entries ->
  In e entries ->
  nested_target e = Some loc ->
  extract_aux env f loc (S d) = Err m ->
  exists m', extract_aux env (S f) url d = Err m'.
Proof.
  intros Hd Hf Hp Hin Ht Hn. simpl. rewrite Hd, Hf. simpl. rewrite Hp. clear Hp Hf Hd.
  generalize (@nil string) as acc.
  induction entries as [|[[loc'|loc']|] es IH]; intros acc; [destruct Hin|..].
  - destruct Hin as [E|Hin].
    + subst e. unfold nested_target in Ht.
      destruct (0 <? String.length loc')%nat; [|discriminate].
      injection Ht as <-. rewrite Hn. simpl. eauto.
    + destruct (0 <? String.length loc')%nat; [|auto].
      destruct (extract_aux env f loc' (S d)); simpl; eauto.
  - destruct Hin as [E|Hin].
    + subst e. unfold nested_target in Ht. injection Ht as <-. rewrite Hn. simpl. eauto.
    + destruct (extract_aux env f loc' (S d)); simpl; eauto.
  - destruct Hin as [E|Hin]; [subst e; discriminate|auto].
Qed.

Lemma extract_nested_failure_propagates_witness :
  extractUrlsFromSitemap Fixture.broken_env Fixture.attr_index_url 0 =
    Err ("Failed to fetch sitemap at [object Object]: Invalid URL") /\
  exists m', extract_aux Fixture.broken_env (S MAX_DEPTH) Fixture.attr_index_url 0 = Err m'.
Proof.
  split; [vm_compute; reflexivity|].
  apply (extract_nested_failure_propagates Fixture.broken_env MAX_DEPTH
           Fixture.attr_index_url 0 "xml_attr_index" [Some (Loc_other "[object Object]")]
           (Some (Loc_other "[object Object]")) "[object Object]"
           "Failed to fetch sitemap at [object Object]: Invalid URL");
    try reflexivity; try (vm_compute; reflexivity).
  left; reflexivity.
Defined.

End ExtractFacts.

(* ------------------------------------------------------------------ *)
(** ** The report summary *)

Module SummaryFacts.
Import Pipeline.

Lemma sum_type_shift t valid a :
  fold_left (fun s r => s + count_type t (pr_messages r)) valid a = a + sum_type t valid.
Proof.
  unfold sum_type. revert a; induction valid as [|r v IH]; intros a; simpl; [lia|].
  rewrite (IH (a + _)), (IH (count_type t (pr_messages r))). lia.
Qed.

Lemma sum_type_cons t r v : sum_type t (r :: v) = count_type t (pr_messages r) + sum_type t v.
Proof. unfold sum_type at 1. simpl. apply sum_type_shift. Qed.

Lemma count_type_partition msgs :
  count_type MT_error msgs + count_type MT_warning msgs + count_type MT_info msgs =
  List.length msgs.
Proof.
  unfold count_type. induction msgs as [|m ms IH]; simpl; [reflexivity|].
  destruct (m_type m); simpl; lia.
Qed.

(** The summary's page counts partition the pages: every page is counted
    once among errors, warnings, clean and failed; and its message counts
    partition the messages of all pages among errors, warnings and infos. *)
Theorem summarize_partition valid baseUrl :
  let s := summarize valid baseUrl in
  pagesWithErrors s + pagesWithWarnings s + pagesClean s + pagesFailed s = totalPages s /\
  totalErrors s + totalWarnings s + totalInfos s =
  List.length (flat_map pr_messages valid).
Proof.
  cbv zeta. unfold summarize; simpl. split.
  - unfold count_status. induction valid as [|r v IH]; simpl; [reflexivity|].
    destruct (pr_status r); simpl; lia.
  - induction valid as [|r v IH]; [reflexivity|].
    rewrite !sum_type_cons. simpl. rewrite length_app, <- (count_type_partition (pr_messages r)).
    lia.
Qed.

End SummaryFacts.

(* ------------------------------------------------------------------ *)
(** ** A whole run that nobody aborts *)

Module FullRun.
Import Pipeline RunEvents PageTask.

Lemma list_set_app {A} (l1 l2 : list A) x y :
  list_set (l1 ++ x :: l2) (List.length l1) y = l1 ++ y :: l2.
Proof. induction l1 as [|a l1 IH]; simpl; [reflexivity | now rewrite IH]. Qed.

Lemma valid_results_map (l : list PageResult) : valid_results (map Some l) = l.
Proof. induction l as [|r l IH]; simpl; [reflexivity | now rewrite IH]. Qed.

Lemma finalize_shape w :
  let valid := valid_results (w_results w) in
  let j := w_job w in
  let w' := finalize w in
  w_pc w' = PC_finished /\ w_sleeps w' = w_sleeps w /\
  buffered (w_job w') = buffered j ++ [Ev_done (summarize valid (w_base w)); Ev_stream_end] /\
  report (w_job w') = Some (summarize valid (w_base w), valid) /\
  done (w_job w') = true /\ aborted (w_job w') = aborted j.
Proof.
  cbv zeta. unfold finalize. cbn. rewrite <- app_assoc. auto 7.
Qed.

Section WithEnv.
Variable env : Env.

Lemma task_finish_shape w i src res :
  nth_error (w_urls w) i = Some (src, res) ->
  let w1 := task_finish env i w in
  w_pc w1 = PC_task_sleep i /\ w_urls w1 = w_urls w /\ w_base w1 = w_base w /\
  w_results w1 = list_set (w_results w) i (Some (Cli.page_result env src res)) /\
  w_sleeps w1 = w_sleeps w ++ [INTER_TASK_DELAY_MS] /\
  buffered (w_job w1) = buffered (w_job w) ++ page_done_events env i (src, res) /\
  aborted (w_job w1) = aborted (w_job w).
Proof.
  intros Hn. cbv zeta. unfold task_finish, page_done_events, Cli.page_result.
  rewrite Hn. cbn [fst snd].
  destruct (validatePage env res); cbn; [rewrite <- app_assoc|]; auto 7.
Qed.

Lemma results_fill (fin : list (string * string)) n src res :
  list_set (map Some (map (fun p => Cli.page_result env (fst p) (snd p)) fin)
            ++ repeat None (S n)) (List.length fin) (Some (Cli.page_result env src res)) =
  map Some (map (fun p => Cli.page_result env (fst p) (snd p)) (fin ++ [(src, res)]))
  ++ repeat None n.
Proof.
  replace (List.length fin)
    with (List.length (map Some (map (fun p => Cli.page_result env (fst p) (snd p)) fin)))
    by (rewrite !length_map; reflexivity).
  simpl repeat. rewrite list_set_app, !map_app, <- app_assoc. reflexivity.
Qed.

Lemma run_loop :
  forall todo fin w src res B,
    w_urls w = fin ++ (src, res) :: todo ->
    w_results w = map Some (map (fun p => Cli.page_result env (fst p) (snd p)) fin)
                  ++ repeat None (S (List.length todo)) ->
    w_pc w = PC_task_await (List.length fin) ->
    aborted (w_job w) = false ->
    buffered (w_job w) = B ++ [Ev_page_fetching (List.length fin) res] ->
    let valid := map (fun p => Cli.page_result env (fst p) (snd p)) (fin ++ (src, res) :: todo) in
    let w' := exec env (repeat Tick (2 * S (List.length todo))) w in
    w_pc w' = PC_finished /\ done (w_job w') = true /\ aborted (w_job w') = false /\
    report (w_job w') = Some (summarize valid (w_base w), valid) /\
    buffered (w_job w') =
      B ++ run_events env (List.length fin) ((src, res) :: todo)
        ++ [Ev_done (summarize valid (w_base w)); Ev_stream_end] /\
    w_sleeps w' = w_sleeps w ++ repeat INTER_TASK_DELAY_MS (S (List.length todo)).
Proof.
  induction todo as [|[src' res'] todo IH]; intros fin w src res B Hu Hr Hpc Hab Hb.
  all: assert (Hn : nth_error (w_urls w) (List.length fin) = Some (src, res))
         by (rewrite Hu, nth_error_app2, Nat.sub_diag by lia; reflexivity).
  all: destruct (task_finish_shape w _ _ _ Hn) as (P1 & U1 & B1 & R1 & S1 & J1 & A1).
  all: set (w1 := task_finish env (List.length fin) w) in *.
  all: assert (E1 : pipe_step env w = w1) by (unfold pipe_step; rewrite Hpc; reflexivity).
  all: assert (E2 : pipe_step env w1 = start_from (S (List.length fin)) w1)
         by (unfold pipe_step; rewrite P1; reflexivity).
  all: rewrite Hr, results_fill in R1.
  - replace (exec env (repeat Tick (2 * S (List.length (@nil (string * string))))) w)
      with (pipe_step env (pipe_step env w)) by reflexivity.
    rewrite E1, E2, start_from_end by (rewrite U1, Hu, !length_app; simpl; lia).
    destruct (finalize_shape w1) as (P2 & S2 & B2 & R2 & D2 & A2).
    simpl repeat in R1. rewrite app_nil_r in R1.
    rewrite R1, B1, valid_results_map in B2, R2. cbv zeta.
    refine (conj P2 (conj D2 (conj _ (conj R2 (conj _ _))))).
    + rewrite A2, A1. exact Hab.
    + rewrite B2, J1, Hb. simpl. rewrite <- !app_assoc. reflexivity.
    + rewrite S2, S1. reflexivity.
  - replace (2 * S (List.length ((src', res') :: todo)))
      with (S (S (2 * S (List.length todo)))) by (simpl; lia).
    replace (exec env (repeat Tick (S (S (2 * S (List.length todo))))) w)
      with (exec env (repeat Tick (2 * S (List.length todo))) (pipe_step env (pipe_step env w)))
      by reflexivity.
    assert (Hn' : nth_error (w_urls w1) (S (List.length fin)) = Some (src', res')).
    { rewrite U1, Hu, nth_error_app2 by lia.
      rewrite Nat.sub_succ_l, Nat.sub_diag by lia. reflexivity. }
    assert (Ha1 : aborted (w_job w1) = false) by (rewrite A1; exact Hab).
    rewrite E1, E2, (start_from_next w1 _ src' res' Ha1 Hn').
    assert (Hlen : List.length (fin ++ [(src, res)]) = S (List.length fin))
      by (rewrite length_app; simpl; lia).
    set (w2 := with_pc (emitW w1 (Ev_page_fetching (S (List.length fin)) res'))
                       (PC_task_await (S (List.length fin)))).
    assert (Hbase : w_base w2 = w_base w) by exact B1.
    destruct (IH (fin ++ [(src, res)]) w2 src' res'
                 (B ++ Ev_page_fetching (List.length fin) res
                    :: page_done_events env (List.length fin) (src, res)))
      as (Q1 & Q2 & Q3 & Q4 & Q5 & Q6).
    + cbn. rewrite U1, Hu, <- app_assoc. reflexivity.
    + cbn. rewrite R1. reflexivity.
    + cbn. rewrite Hlen. reflexivity.
    + exact Ha1.
    + cbn. rewrite J1, Hb, Hlen, <- !app_assoc. reflexivity.
    + cbv zeta in *. rewrite Hbase, <- app_assoc, Hlen in *.
      change ([(src, res)] ++ (src', res') :: todo) with ((src, res) :: (src', res') :: todo) in *.
      refine (conj Q1 (conj Q2 (conj Q3 (conj Q4 (conj _ _))))).
      * rewrite Q5. simpl. rewrite <- !app_assoc. simpl. rewrite <- !app_assoc. reflexivity.
      * rewrite Q6. cbn. rewrite S1, <- app_assoc. reflexivity.
Qed.

Lemma traverse_rebase b raw rs :
  Forall2 (fun u r => rebase env u b = Ok r) raw rs ->
  traverse (fun u => r <- rebase env u b ;; Ok (u, r)) raw = Ok (combine raw rs).
Proof.
  induction 1 as [|u r raw rs Hr _ IH]; [reflexivity|].
  simpl. rewrite Hr. simpl. rewrite IH. reflexivity.
Qed.

Lemma map_snd_combine {A B} (l1 : list A) (l2 : list B) :
  List.length l1 = List.length l2 -> map snd (combine l1 l2) = l2.
Proof.
  revert l2; induction l1 as [|a l1 IH]; intros [|b l2] H; simpl in *; try lia; auto.
  rewrite IH; auto.
Qed.

Lemma map_fst_combine {A B} (l1 : list A) (l2 : list B) :
  List.length l1 = List.length l2 -> map fst (combine l1 l2) = l1.
Proof.
  revert l2; induction l1 as [|a l1 IH]; intros [|b l2] H; simpl in *; try lia; auto.
  rewrite IH; auto.
Qed.

(** The first step of a run whose sitemap lists pages: [sitemap_done], then
    the first task reaches its checker call. *)
Lemma first_step s raw0 rest bb b r0 rs :
  parseUrlsFromXml env (s_xml s) = Ok (PR_urls (raw0 :: rest)) ->
  s_base s = Some bb ->
  ((trim env bb <> "" /\ b = trim env bb) \/ (trim env bb = "" /\ getOrigin env raw0 = Ok b)) ->
  Forall2 (fun u r => rebase env u b = Ok r) (raw0 :: rest) (r0 :: rs) ->
  let us := combine (raw0 :: rest) (r0 :: rs) in
  let w1 := emitW (init s) (Ev_sitemap_done (List.length us) (r0 :: rs)) in
  pipe_step env (init s) =
    with_pc (emitW (mkWorld (w_job w1) (w_rs w1) (w_pc w1) (w_params w1) us
                            (repeat None (List.length us)) b (w_sleeps w1))
                   (Ev_page_fetching 0 r0))
            (PC_task_await 0).
Proof.
  intros Hp Hs Hb Hf. cbv zeta.
  pose proof (Forall2_length Hf) as Hl.
  unfold pipe_step. cbn [w_pc init w_params params_of p_xml]. rewrite Hp.
  unfold after_resolve. cbn [w_params init params_of p_base]. rewrite Hs. cbv zeta.
  destruct Hb as [(Hne & ->)|(He & Ho)].
  - rewrite (proj2 (String.eqb_neq _ _) Hne). cbn [bind].
    rewrite (traverse_rebase _ _ _ Hf). cbn [bind].
    rewrite (map_snd_combine _ _ Hl).
    apply (start_from_next _ _ raw0 r0); reflexivity.
  - rewrite He, Ho. cbn [bind String.eqb].
    rewrite (traverse_rebase _ _ _ Hf). cbn [bind].
    rewrite (map_snd_combine _ _ Hl).
    apply (start_from_next _ _ raw0 r0); reflexivity.
Qed.

End WithEnv.

(** [runValidation] when nobody aborts, for a sitemap that lists pages,
    every page resolved against the base: after [1 + 2n] steps for [n]
    pages the job is done and not aborted; its report holds one result per
    page, in sitemap order, each the result [validatePage] gives the
    resolved URL (the same result as the command line's); the summary
    counts every page; and the stream carries [sitemap_done], the events of
    each page in order, the summary and the end of the stream.  The task
    slept 1000 ms after every page. *)
Theorem run_without_abort env s raw0 rest bb b rs :
  parseUrlsFromXml env (s_xml s) = Ok (PR_urls (raw0 :: rest)) ->
  s_base s = Some bb ->
  ((trim env bb <> "" /\ b = trim env bb) \/ (trim env bb = "" /\ getOrigin env raw0 = Ok b)) ->
  Forall2 (fun u r => rebase env u b = Ok r) (raw0 :: rest) rs ->
  let us := combine (raw0 :: rest) rs in
  let valid := map (fun p => Cli.page_result env (fst p) (snd p)) us in
  let w := exec env (repeat Tick (1 + 2 * List.length us)) (init s) in
  w_pc w = PC_finished /\ done (w_job w) = true /\ aborted (w_job w) = false /\
  report (w_job w) = Some (summarize valid b, valid) /\
  map pr_sourceUrl valid = raw0 :: rest /\ map pr_url valid = rs /\
  totalPages (summarize valid b) = List.length (raw0 :: rest) /\
  buffered (w_job w) =
    Ev_sitemap_done (List.length us) rs :: run_events env 0 us
      ++ [Ev_done (summarize valid b); Ev_stream_end] /\
  w_sleeps w = repeat INTER_TASK_DELAY_MS (List.length us).
Proof.
  intros Hp Hs Hb Hf. cbv zeta.
  pose proof (Forall2_length Hf) as Hl.
  inversion Hf as [|? r0 ? rs' Hr0 Hrest]; subst.
  pose proof (first_step env s raw0 rest bb b r0 rs' Hp Hs Hb Hf) as E. cbv zeta in E.
  set (us := combine (raw0 :: rest) (r0 :: rs')) in *.
  assert (Hus : us = (raw0, r0) :: combine rest rs') by reflexivity.
  assert (Hvalid : forall f : string * string -> PageResult,
             map f us = map f ([] ++ (raw0, r0) :: combine rest rs')) by reflexivity.
  assert (Hsrc : map pr_sourceUrl (map (fun p => Cli.page_result env (fst p) (snd p)) us)
                 = map fst us).
  { rewrite map_map. apply map_ext. intros [x y]. unfold Cli.page_result. cbn [fst snd].
    destruct (validatePage env y); reflexivity. }
  assert (Hurl : map pr_url (map (fun p => Cli.page_result env (fst p) (snd p)) us)
                 = map snd us).
  { rewrite map_map. apply map_ext. intros [x y]. unfold Cli.page_result. cbn [fst snd].
    destruct (validatePage env y); reflexivity. }
  unfold us in Hsrc, Hurl.
  rewrite map_fst_combine in Hsrc by exact Hl.
  rewrite map_snd_combine in Hurl by exact Hl.
  fold us in Hsrc, Hurl.
  replace (exec env (repeat Tick (1 + 2 * List.length us)) (init s))
    with (exec env (repeat Tick (2 * S (List.length (combine rest rs'))))
               (pipe_step env (init s))) by (rewrite Hus; reflexivity).
  rewrite E.
  match goal with
  | |- context [exec env _ ?w0] =>
      destruct (run_loop env (combine rest rs') [] w0 raw0 r0
                  [Ev_sitemap_done (List.length us) (r0 :: rs')])
        as (Q1 & Q2 & Q3 & Q4 & Q5 & Q6)
  end.
  - reflexivity.
  - rewrite Hus. reflexivity.
  - reflexivity.
  - reflexivity.
  - reflexivity.
  - cbv zeta in *. rewrite <- Hvalid in Q4, Q5.
    refine (conj Q1 (conj Q2 (conj Q3 (conj Q4 (conj Hsrc (conj Hurl (conj _ (conj _ _)))))))).
    + unfold summarize. cbn [totalPages]. rewrite length_map. unfold us.
      rewrite length_combine, <- Hl. apply Nat.min_id.
    + rewrite Q5. reflexivity.
    + rewrite Q6, Hus. reflexivity.
Qed.

Lemma run_without_abort_witness :
  parseUrlsFromXml Fixture.ex_env (s_xml (Fixture.sub "xml_two")) =
    Ok (PR_urls [Fixture.page_a; Fixture.page_b]) /\
  w_pc (exec Fixture.ex_env (repeat Tick 5) (init (Fixture.sub "xml_two"))) = PC_finished.
Proof.
  assert (Hp : parseUrlsFromXml Fixture.ex_env (s_xml (Fixture.sub "xml_two")) =
               Ok (PR_urls [Fixture.page_a; Fixture.page_b])) by (vm_compute; reflexivity).
  assert (Hs : s_base (Fixture.sub "xml_two") = Some "") by reflexivity.
  assert (Hb : (trim Fixture.ex_env "" <> "" /\ "https://example.com" = trim Fixture.ex_env "") \/
               (trim Fixture.ex_env "" = "" /\
                getOrigin Fixture.ex_env Fixture.page_a = Ok "https://example.com"))
    by (right; split; reflexivity).
  assert (Hf : Forall2 (fun u r => rebase Fixture.ex_env u "https://example.com" = Ok r)
                 [Fixture.page_a; Fixture.page_b] [Fixture.page_a; Fixture.page_b])
    by (repeat constructor).
  pose proof (run_without_abort Fixture.ex_env (Fixture.sub "xml_two") Fixture.page_a
                [Fixture.page_b] "" "https://example.com" _ Hp Hs Hb Hf) as R.
  cbv zeta in R. exact (conj Hp (proj1 R)).
Defined.

End FullRun.

(* ------------------------------------------------------------------ *)
(** ** The job as the routes see it *)

Module JobFacts.
Import Pipeline.

Local Notation "'jr' w" := (w_job w, w_rs w) (at level 10, w at level 9).

Ltac plain_event := intros; discriminate.

Lemma jss_trans x y z : job_steps x y -> job_steps y z -> job_steps x z.
Proof.
  induction 1 as [x|x y' z' H _ IH]; intros Hz; [exact Hz|].
  eapply JSS_step; [exact H | apply IH; exact Hz].
Qed.

Lemma jss_one x y : job_step x y -> job_steps x y.
Proof. intros H. eapply JSS_step; [exact H | apply JSS_refl]. Qed.

Lemma jss_emitW w e :
  e <> Ev_stream_end -> (forall s, e <> Ev_done s) -> job_steps (jr w) (jr (emitW w e)).
Proof. intros H1 H2. apply jss_one. exact (JS_emit (w_job w) (w_rs w) e H1 H2). Qed.

Lemma jss_emit_pair j rs e :
  e <> Ev_stream_end -> (forall s, e <> Ev_done s) ->
  job_steps (j, rs) (fst (emit j rs e), snd (emit j rs e)).
Proof. intros H1 H2. apply jss_one. exact (JS_emit j rs e H1 H2). Qed.

Lemma jss_endJobW w : job_steps (jr w) (jr (endJobW w)).
Proof. apply jss_one. exact (JS_end (w_job w) (w_rs w)). Qed.

Lemma jss_with_pc w pc : jr (with_pc w pc) = jr w.
Proof. reflexivity. Qed.

Lemma jss_emit_all w es :
  Forall (fun e => e <> Ev_stream_end /\ forall s, e <> Ev_done s) es ->
  job_steps (jr w) (jr (emit_all w es)).
Proof.
  revert w; induction es as [|e es IH]; intros w H; [apply JSS_refl|].
  apply Forall_cons_iff in H. destruct H as [[H1 H2] Hes]. cbn [emit_all].
  eapply jss_trans; [exact (jss_emitW w e H1 H2) | apply IH; exact Hes].
Qed.

Lemma jss_finalize w : job_steps (jr w) (jr (finalize w)).
Proof.
  eapply JSS_step.
  - exact (JS_report (w_job w) (w_rs w) (valid_results (w_results w)) (w_base w)).
  - apply jss_one. apply JS_end.
Qed.

Lemma jss_start_tasks fuel i w : job_steps (jr w) (jr (start_tasks fuel i w)).
Proof.
  revert i; induction fuel as [|fuel IH]; intros i; cbn [start_tasks]; [apply jss_finalize|].
  destruct (aborted (w_job w)); [apply IH|].
  destruct (nth_error (w_urls w) i) as [[src res]|]; [|apply jss_finalize].
  rewrite jss_with_pc. apply jss_emitW; plain_event.
Qed.

Lemma jss_start_from i w : job_steps (jr w) (jr (start_from i w)).
Proof. apply jss_start_tasks. Qed.

Section WithEnv.
Variable env : Env.

Lemma jss_after_resolve raw w : job_steps (jr w) (jr (after_resolve env raw w)).
Proof.
  unfold after_resolve. destruct raw as [|raw0 rest].
  - rewrite jss_with_pc. eapply jss_trans; [|apply jss_endJobW]; apply jss_emitW; plain_event.
  - destruct (bind _ _) as [[b us]|m]; [|apply JSS_refl].
    eapply jss_trans;
      [|exact (jss_start_from 0 (mkWorld _ _ _ _ us (repeat None (List.length us)) b _))].
    apply jss_emitW; plain_event.
Qed.

Lemma jss_index_next rest acc w : job_steps (jr w) (jr (index_next env rest acc w)).
Proof.
  unfold index_next. destruct rest as [|u rest].
  - eapply jss_trans; [|apply jss_after_resolve]; apply jss_emitW; plain_event.
  - rewrite jss_with_pc. apply jss_emitW; plain_event.
Qed.

Lemma jss_task_finish i w : job_steps (jr w) (jr (task_finish env i w)).
Proof.
  unfold task_finish. destruct (nth_error (w_urls w) i) as [[src res]|]; [|apply JSS_refl].
  destruct (validatePage env res) as [msgs|m]; cbn -[emit].
  - eapply jss_trans;
      [exact (jss_emit_pair (w_job w) (w_rs w) (Ev_page_validating i res)
                ltac:(discriminate) ltac:(intros ?; discriminate))|].
    apply jss_emit_pair; plain_event.
  - apply jss_emit_pair; plain_event.
Qed.

Lemma jss_pipe_step w : job_steps (jr w) (jr (pipe_step env w)).
Proof.
  unfold pipe_step. destruct (w_pc w) as [|u rest acc|i|i|]; [| | | |apply JSS_refl].
  - destruct (parseUrlsFromXml env (p_xml (w_params w))) as [[l|l]|m].
    + apply jss_after_resolve.
    + eapply jss_trans; [|apply jss_index_next]; apply jss_emitW; plain_event.
    + rewrite jss_with_pc. eapply jss_trans; [|apply jss_endJobW]; apply jss_emitW; plain_event.
  - unfold nested_outcome.
    destruct (fetch_text env u) as [text|m];
      [destruct (parseUrlsFromXml env text) as [[l|l]|m]|].
    all: eapply jss_trans; [|apply jss_index_next].
    all: apply jss_emit_all; repeat apply Forall_cons; try apply Forall_nil; split; plain_event.
  - apply jss_task_finish.
  - apply jss_start_from.
Qed.

End WithEnv.

Section Preserved.
(** A property of the job kept by every job transition of the pipeline and
    by the abort and stream routes. *)
Variable P : Job -> Prop.
Hypothesis P_step : forall x y, job_step x y -> P (fst x) -> P (fst y).
Hypothesis P_abort : forall j rs, P j -> P (fst (abort_route j rs)).
Hypothesis P_attach : forall o j rs, P j -> P (fst (stream_route o j rs)).

Lemma P_steps x y : job_steps x y -> P (fst x) -> P (fst y).
Proof. induction 1; eauto. Qed.

Lemma P_exec env acts w : P (w_job w) -> P (w_job (exec env acts w)).
Proof.
  revert w; induction acts as [|a acts IH]; intros w H; cbn [exec]; [exact H|].
  apply IH. destruct a as [| |o].
  - exact (P_steps _ _ (jss_pipe_step env w) H).
  - exact (P_abort (w_job w) (w_rs w) H).
  - exact (P_attach o (w_job w) (w_rs w) H).
Qed.

End Preserved.

Lemma report_inv_step x y :
  job_step x y ->
  (forall s v, report (fst x) = Some (s, v) ->
     In (Ev_done s) (buffered (fst x)) /\ exists b, s = summarize v b) ->
  (forall s v, report (fst y) = Some (s, v) ->
     In (Ev_done s) (buffered (fst y)) /\ exists b, s = summarize v b).
Proof.
  destruct 1 as [j rs e _ _|j rs|j rs v b]; cbn; intros H s0 v0 Hr.
  - destruct (H s0 v0 Hr) as [Hin Hb]. split; [apply in_or_app; left; exact Hin | exact Hb].
  - destruct (H s0 v0 Hr) as [Hin Hb]. split; [apply in_or_app; left; exact Hin | exact Hb].
  - injection Hr as <- <-. split; [apply in_or_app; right; left; reflexivity | eauto].
Qed.

Lemma end_inv_step x y :
  job_step x y ->
  (In Ev_stream_end (buffered (fst x)) -> done (fst x) = true) ->
  (In Ev_stream_end (buffered (fst y)) -> done (fst y) = true).
Proof.
  destruct 1 as [j rs e He _|j rs|j rs v b]; cbn; intros H Hin.
  - apply in_app_or in Hin. destruct Hin as [Hin|[E|[]]]; [auto | congruence].
  - reflexivity.
  - apply in_app_or in Hin. destruct Hin as [Hin|[E|[]]]; [auto | discriminate].
Qed.

Lemma stream_end_done env s acts :
  In Ev_stream_end (buffered (w_job (exec env acts (init s)))) ->
  done (w_job (exec env acts (init s))) = true.
Proof.
  refine (P_exec (fun j => In Ev_stream_end (buffered j) -> done j = true)
                 end_inv_step _ _ env acts (init s) _).
  - intros j rs _ _. reflexivity.
  - intros o j rs H. unfold stream_route. destruct (done j) eqn:E; cbn; [intros _; exact E | exact H].
  - intros [].
Qed.

(** [GET /api/report/:id] answers 200 only for a job whose stream already
    carries the [done] event with the report's summary, and that summary is
    the one computed from the report's own pages; and a job is done exactly
    when its stream contains [stream_end].  This holds after any sequence of
    pipeline steps, aborts and stream requests. *)
Theorem report_matches_stream env s acts :
  let j := w_job (exec env acts (init s)) in
  (forall summary valid,
     report_route (Some j) = (200, Some (summary, valid)) ->
     In (Ev_done summary) (buffered j) /\ exists b, summary = summarize valid b) /\
  (done j = true <-> In Ev_stream_end (buffered j)).
Proof.
  cbv zeta. split; [|split].
  - intros summary valid Hr. unfold report_route in Hr.
    destruct (report (w_job (exec env acts (init s)))) as [[s0 v0]|] eqn:E;
      [|discriminate].
    injection Hr as <- <-.
    refine (P_exec (fun j => forall s v, report j = Some (s, v) ->
                      In (Ev_done s) (buffered j) /\ exists b, s = summarize v b)
                   report_inv_step _ _ env acts (init s) _ _ _ E).
    + intros j rs H s1 v1. unfold abort_route. cbn. intros Hr.
      destruct (H s1 v1 Hr) as [Hin Hb]. split; [|exact Hb].
      rewrite <- app_assoc. apply in_or_app. left. exact Hin.
    + intros o j rs H. unfold stream_route. destruct (done j); exact H.
    + intros s1 v1 Hr. discriminate.
  - apply Runs.done_has_stream_end. intros Hd. discriminate.
  - apply stream_end_done.
Qed.

End JobFacts.

(* ------------------------------------------------------------------ *)
(** ** An observer that attaches while the job runs *)

Module ObserverFacts.
Import Pipeline.











End ObserverFacts.

(* ------------------------------------------------------------------ *)
(** ** The command line: [--delay] *)

Module DelayFacts.
Import Cli.

Lemma skip_ws_app ws s : forallb is_ws ws = true -> skip_ws (ws ++ s) = skip_ws s.
Proof.
  induction ws as [|c ws IH]; cbn; [reflexivity|].
  intros H. apply andb_true_iff in H as [H1 H2]. rewrite H1. auto.
Qed.

Lemma skip_ws_stop c s : is_ws c = false -> skip_ws (c :: s) = c :: s.
Proof. cbn. intros ->. reflexivity. Qed.

Lemma digit_not_ws c : is_digit c = true -> is_ws c = false.
Proof.
  intros Hd. destruct (is_ws c) eqn:Hw; [|reflexivity]. exfalso.
  unfold is_ws in Hw. apply existsb_exists in Hw. destruct Hw as (k & Hin & Hk).
  apply N.eqb_eq in Hk. subst k. unfold is_digit in Hd.
  apply andb_true_iff in Hd as [H1 H2]. apply N.leb_le in H1, H2.
  cbn in Hin. repeat (destruct Hin as [<-|Hin]; [lia|]). destruct Hin.
Qed.

Lemma digit_prefix_app ds rest :
  forallb is_digit ds = true ->
  match rest with [] => True | c :: _ => is_digit c = false end ->
  digit_prefix (ds ++ rest) = ds.
Proof.
  intros Hds Hr. induction ds as [|d ds IH]; cbn.
  - destruct rest as [|c r]; [reflexivity|]. cbn. rewrite Hr. reflexivity.
  - cbn in Hds. apply andb_true_iff in Hds as [H1 H2]. rewrite H1, IH; auto.
Qed.

Lemma digits_value_nonneg ds : (0 <= digits_value ds)%Z.
Proof.
  induction ds as [|d ds IH] using rev_ind; [reflexivity|].
  unfold digits_value in *. rewrite fold_left_app. cbn. lia.
Qed.

Lemma digit_head d : is_digit d = true -> N.eqb d 45 = false /\ N.eqb d 43 = false.
Proof.
  unfold is_digit. intros H. apply andb_true_iff in H as [H1 _]. apply N.leb_le in H1.
  split; apply N.eqb_neq; lia.
Qed.

Lemma round_small z : (0 <= z < 2 ^ 53)%Z -> round_pos z = Some z.
Proof.
  intros H. unfold round_pos. destruct (Z.ltb_spec z (2 ^ 53)); [reflexivity|lia].
Qed.

(** Beyond [2^53], [round_pos] scales [z] down to 53 bits, [q], and back. *)
Lemma round_scaled z :
  (2 ^ 53 <= z)%Z ->
  let sh := (Z.log2 z - 52)%Z in
  (0 < sh)%Z /\ (2 ^ 52 * 2 ^ sh <= Z.shiftr z sh * 2 ^ sh)%Z.
Proof.
  intros Hz. cbv zeta.
  assert (Hl : (53 <= Z.log2 z)%Z).
  { rewrite <- (Z.log2_pow2 53) by lia. apply Z.log2_le_mono. exact Hz. }
  split; [lia|].
  rewrite Z.shiftr_div_pow2 by lia.
  apply Z.mul_le_mono_nonneg_r; [lia|].
  apply Z.div_le_lower_bound; [lia|].
  rewrite <- Z.pow_add_r by lia.
  replace (Z.log2 z - 52 + 52)%Z with (Z.log2 z) by lia.
  apply Z.log2_spec. lia.
Qed.

Lemma round_pos_pos z v : (0 < z)%Z -> round_pos z = Some v -> (0 < v)%Z.
Proof.
  intros Hz. unfold round_pos. destruct (Z.ltb_spec z (2 ^ 53)) as [Hs|Hs].
  - intros H. injection H as <-. exact Hz.
  - destruct (round_scaled z Hs) as [Hsh Hq]. cbv zeta.
    set (sh := (Z.log2 z - 52)%Z) in *. set (q := Z.shiftr z sh) in *.
    match goal with |- context [Z.shiftl ?q' sh] => set (q2 := q') end.
    assert (H2 : (q <= q2)%Z) by (unfold q2; destruct (_ || _); lia).
    destruct (2 ^ 1024 <=? Z.shiftl q2 sh)%Z; [discriminate|].
    intros H. injection H as <-. rewrite Z.shiftl_mul_pow2 by lia.
    assert (0 < 2 ^ 52 * 2 ^ sh)%Z by (apply Z.mul_pos_pos; apply Z.pow_pos_nonneg; lia).
    nia.
Qed.

Lemma round_big z : (2 ^ 1024 <= z)%Z -> round_pos z = None.
Proof.
  intros Hz. unfold round_pos.
  destruct (Z.ltb_spec z (2 ^ 53)) as [Hs|Hs]; [lia|].
  destruct (round_scaled z Hs) as [Hsh Hq]. cbv zeta.
  set (sh := (Z.log2 z - 52)%Z) in *. set (q := Z.shiftr z sh) in *.
  match goal with |- context [Z.shiftl ?q' sh] => set (q2 := q') end.
  assert (H2 : (q <= q2)%Z) by (unfold q2; destruct (_ || _); lia).
  assert (Hl : (1024 <= Z.log2 z)%Z).
  { rewrite <- (Z.log2_pow2 1024) by lia. apply Z.log2_le_mono. exact Hz. }
  assert (Hp : (2 ^ 1024 <= 2 ^ 52 * 2 ^ sh)%Z).
  { rewrite <- Z.pow_add_r by lia. apply Z.pow_le_mono_r; lia. }
  rewrite Z.shiftl_mul_pow2 by lia.
  destruct (Z.leb_spec (2 ^ 1024) (q2 * 2 ^ sh)) as [|Hlt]; [reflexivity|].
  exfalso. assert (0 < 2 ^ sh)%Z by (apply Z.pow_pos_nonneg; lia). nia.
Qed.

Lemma cli_delay_shape ws sgn ds rest :
  forallb is_ws ws = true -> ds <> [] -> forallb is_digit ds = true ->
  match rest with [] => True | c :: _ => is_digit c = false end ->
  forall sign, (sign = [] /\ sgn = 1%Z) \/ (sign = [43%N] /\ sgn = 1%Z) \/
               (sign = [45%N] /\ sgn = (-1)%Z) ->
  parseInt10 (ws ++ sign ++ ds ++ rest) = Some (to_number (sgn * digits_value ds)).
Proof.
  intros Hws Hne Hds Hr sign Hs.
  assert (Hhd : exists d ds', ds = d :: ds' /\ is_digit d = true).
  { destruct ds as [|d ds']; [congruence|]. cbn in Hds.
    apply andb_true_iff in Hds as [H1 _]. eauto. }
  destruct Hhd as (d & ds' & Eds & Hd).
  assert (Hp : digit_prefix (ds ++ rest) = ds) by (apply digit_prefix_app; assumption).
  unfold parseInt10. rewrite skip_ws_app by assumption.
  destruct Hs as [[-> ->] | [[-> ->] | [-> ->]]]; cbn [app].
  - rewrite Eds in Hp |- *. cbn [app] in Hp |- *.
    rewrite skip_ws_stop by (apply digit_not_ws; assumption).
    destruct (digit_head d Hd) as [E45 E43]. rewrite E45, E43.
    cbv zeta. rewrite Hp. reflexivity.
  - cbn -[digit_prefix digits_value Z.mul]. rewrite Hp, Eds. reflexivity.
  - cbn -[digit_prefix digits_value Z.mul]. rewrite Hp, Eds. reflexivity.
Qed.

(** [Math.max(0, parseInt(delay, 10) || 1000)] on a decimal number: after
    whitespace and an optional sign, the digits up to the first non-digit
    give the delay.  A zero value gives 1000 ms, as NaN does, and a
    negative value gives 0.  A positive value is kept exactly when it is
    below 2^53, where every integer is a double. *)
Theorem cli_delay_decimal ws sign ds rest :
  forallb is_ws ws = true ->
  ds <> [] -> forallb is_digit ds = true ->
  match rest with [] => True | c :: _ => is_digit c = false end ->
  ((sign = [] \/ sign = [43%N]) -> (digits_value ds < 2 ^ 53)%Z ->
     cli_delay (ws ++ sign ++ ds ++ rest) =
       Fin (if (digits_value ds =? 0)%Z then 1000 else digits_value ds)) /\
  (sign = [45%N] ->
     cli_delay (ws ++ sign ++ ds ++ rest) =
       Fin (if (digits_value ds =? 0)%Z then 1000 else 0)).
Proof.
  intros Hws Hne Hds Hr.
  pose proof (digits_value_nonneg ds) as Hv.
  split.
  - intros Hs Hb. unfold cli_delay.
    rewrite (cli_delay_shape ws 1 ds rest Hws Hne Hds Hr sign)
      by (destruct Hs; [left|right; left]; auto).
    rewrite Z.mul_1_l. unfold to_number.
    destruct (Z.leb_spec 0 (digits_value ds)) as [_|]; [|lia].
    rewrite round_small by lia.
    destruct (digits_value ds =? 0)%Z eqn:Ez; [reflexivity|].
    f_equal. lia.
  - intros ->. unfold cli_delay.
    rewrite (cli_delay_shape ws (-1) ds rest Hws Hne Hds Hr [45%N])
      by (right; right; auto).
    unfold to_number.
    destruct (digits_value ds =? 0)%Z eqn:Ez.
    + apply Z.eqb_eq in Ez. rewrite Ez. reflexivity.
    + apply Z.eqb_neq in Ez.
      destruct (Z.leb_spec 0 (-1 * digits_value ds)) as [|_]; [lia|].
      replace (- (-1 * digits_value ds))%Z with (digits_value ds) by lia.
      destruct (round_pos (digits_value ds)) as [v|] eqn:Er; [|reflexivity].
      pose proof (round_pos_pos (digits_value ds) v ltac:(lia) Er).
      replace (- v =? 0)%Z with false by (symmetry; apply Z.eqb_neq; lia).
      f_equal. lia.
Qed.

Lemma cli_delay_decimal_witness :
  cli_delay ([32%N; 9%N] ++ [] ++ [55%N; 53%N] ++ [109%N; 115%N]) = Fin 75 /\
  cli_delay ([32%N; 9%N] ++ [45%N] ++ [55%N; 53%N] ++ [109%N; 115%N]) = Fin 0.
Proof.
  destruct (cli_delay_decimal [32%N; 9%N] [] [55%N; 53%N] [109%N; 115%N]
              eq_refl ltac:(discriminate) eq_refl eq_refl) as [H1 _].
  destruct (cli_delay_decimal [32%N; 9%N] [45%N] [55%N; 53%N] [109%N; 115%N]
              eq_refl ltac:(discriminate) eq_refl eq_refl) as [_ H2].
  split.
  - rewrite (H1 (or_introl eq_refl) ltac:(vm_compute; reflexivity)). vm_compute. reflexivity.
  - rewrite (H2 eq_refl). vm_compute. reflexivity.
Defined.

(** A decimal delay of 2^1024 or more is beyond every double: [parseInt]
    gives Infinity, and so does the delay. *)
Theorem cli_delay_infinite ws sign ds rest :
  forallb is_ws ws = true ->
  ds <> [] -> forallb is_digit ds = true ->
  match rest with [] => True | c :: _ => is_digit c = false end ->
  (sign = [] \/ sign = [43%N]) -> (2 ^ 1024 <= digits_value ds)%Z ->
  cli_delay (ws ++ sign ++ ds ++ rest) = PosInf.
Proof.
  intros Hws Hne Hds Hr Hs Hb. unfold cli_delay.
  rewrite (cli_delay_shape ws 1 ds rest Hws Hne Hds Hr sign)
    by (destruct Hs; [left|right; left]; auto).
  rewrite Z.mul_1_l. unfold to_number.
  destruct (Z.leb_spec 0 (digits_value ds)) as [_|]; [|lia].
  rewrite round_big by exact Hb. reflexivity.
Qed.

Lemma cli_delay_infinite_witness :
  cli_delay ([] ++ [] ++ repeat 57%N 310 ++ []) = PosInf.
Proof.
  apply (cli_delay_infinite [] [] (repeat 57%N 310) [] eq_refl ltac:(discriminate)
           ltac:(vm_compute; reflexivity) I (or_introl eq_refl)).
  vm_compute. discriminate.
Defined.

(** A delay text with no number (after whitespace, a first unit that is no
    digit and no sign, or a sign followed by no digit) is NaN, and the delay
    is then 1000 ms. *)
Theorem cli_delay_nan ws sign rest :
  forallb is_ws ws = true ->
  (sign = [] \/ sign = [43%N] \/ sign = [45%N]) ->
  match rest with
  | [] => True
  | c :: _ => is_digit c = false /\
              (sign = [] -> is_ws c = false /\ c <> 43%N /\ c <> 45%N)
  end ->
  cli_delay (ws ++ sign ++ rest) = Fin 1000.
Proof.
  intros Hws Hs Hr. unfold cli_delay, parseInt10. rewrite skip_ws_app by assumption.
  destruct Hs as [-> | [-> | ->]]; cbn [app].
  - destruct rest as [|c r]; [reflexivity|].
    destruct Hr as [Hd Hc]. destruct (Hc eq_refl) as (Hw & H43 & H45).
    rewrite skip_ws_stop by assumption.
    apply N.eqb_neq in H43, H45. rewrite H45, H43. cbn. rewrite Hd. reflexivity.
  - cbn. destruct rest as [|c r]; [reflexivity|]. destruct Hr as [Hd _].
    cbn. rewrite Hd. reflexivity.
  - cbn. destruct rest as [|c r]; [reflexivity|]. destruct Hr as [Hd _].
    cbn. rewrite Hd. reflexivity.
Qed.

Lemma cli_delay_nan_witness :
  cli_delay ([32%N] ++ [] ++ [102%N; 97%N; 115%N; 116%N]) = Fin 1000 /\
  cli_delay ([] ++ [45%N] ++ [32%N; 53%N]) = Fin 1000.
Proof.
  split.
  - apply (cli_delay_nan [32%N] [] [102%N; 97%N; 115%N; 116%N] eq_refl (or_introl eq_refl)).
    split; [reflexivity|]. intros _. split; [reflexivity|]. split; discriminate.
  - apply (cli_delay_nan [] [45%N] [32%N; 53%N] eq_refl (or_intror (or_intror eq_refl))).
    split; [reflexivity|]. discriminate.
Defined.

End DelayFacts.

(* ------------------------------------------------------------------ *)
(** ** The command line: [main] *)

Module MainFacts.
Import Cli.

Lemma traverse_pairs env b raw us :
  traverse (fun url => r <- rebase env url b ;; Ok (url, r)) raw = Ok us ->
  map fst us = raw.
Proof.
  revert us; induction raw as [|u raw IH]; intros us H; cbn in H.
  - injection H as <-. reflexivity.
  - destruct (rebase env u b) as [r|m]; cbn in H; [|discriminate].
    destruct (traverse _ raw) as [us'|m] eqn:E; cbn in H; [|discriminate].
    injection H as <-. cbn. rewrite (IH us' eq_refl). reflexivity.
Qed.

Lemma page_result_urls env p :
  pr_sourceUrl (page_result env (fst p) (snd p)) = fst p /\
  pr_url (page_result env (fst p) (snd p)) = snd p.
Proof.
  unfold page_result. destruct (Pipeline.validatePage env (snd p)); split; reflexivity.
Qed.

Lemma count_status_zero s rs :
  Pipeline.count_status s rs = 0 <-> Forall (fun r => pr_status r <> s) rs.
Proof.
  unfold Pipeline.count_status. rewrite length_zero_iff_nil, Forall_forall.
  split.
  - intros H r Hin Hs. assert (In r (filter (fun r => PageStatus_eqb (pr_status r) s) rs)).
    { apply filter_In. split; [exact Hin|]. rewrite Hs. destruct s; reflexivity. }
    rewrite H in H0. destruct H0.
  - intros H. destruct (filter _ rs) as [|r l] eqn:E; [reflexivity|].
    assert (Hin : In r (filter (fun r => PageStatus_eqb (pr_status r) s) rs))
      by (rewrite E; left; reflexivity).
    apply filter_In in Hin as [Hin Hs]. exfalso. apply (H r Hin).
    destruct (pr_status r), s; try reflexivity; discriminate.
Qed.

(** A report written by [main] is the one of the sitemap's pages: it goes to
    the [--output] path; its results are the extracted URLs (a non-empty
    list), in order, each resolved and checked once; the summary counts them
    and names the sitemap; the exit code is 0 exactly when no page has
    errors or failed (warnings do not fail the run), and 1 otherwise; and a
    positive delay is slept once per page. *)
Theorem main_report_consistent env writeFile opts f summary results :
  let out := main env writeFile opts in
  report_file out = Some (f, (summary, results)) ->
  f = o_output opts /\
  (exists raw, extractUrlsFromSitemap env (o_sitemap opts) 0 = Ok raw /\ raw <> [] /\
     map pr_sourceUrl results = raw) /\
  map pr_url results = validated out /\
  summary = Pipeline.summarize results (o_sitemap opts) /\
  (exit_code out = 0 <->
     Forall (fun r => pr_status r <> PS_errors /\ pr_status r <> PS_failed) results) /\
  exit_code out <= 1 /\
  sleeps out = if number_pos (cli_delay (o_delay opts))
               then repeat (cli_delay (o_delay opts)) (List.length results) else [].
Proof.
  cbv zeta. unfold main.
  destruct (match o_base opts with Some b => Ok b | None => getOrigin env (o_sitemap opts) end)
    as [b|m]; [|discriminate].
  destruct (extractUrlsFromSitemap env (o_sitemap opts) 0) as [raw|m] eqn:Ex; [|discriminate].
  destruct raw as [|u0 raw']; [discriminate|].
  destruct (traverse _ (u0 :: raw')) as [us|m] eqn:Et; [|discriminate].
  destruct (writeFile (o_output opts)) as [[]|m]; [|discriminate].
  cbn [report_file exit_code validated sleeps].
  intros H. injection H as <- <- <-.
  pose proof (traverse_pairs env b (u0 :: raw') us Et) as Hfst.
  split; [reflexivity|]. split; [|split; [|split; [reflexivity|split; [|split]]]].
  - exists (u0 :: raw'). split; [reflexivity|]. split; [discriminate|].
    rewrite <- Hfst, map_map. apply map_ext. intros p. apply page_result_urls.
  - rewrite map_map. apply map_ext. intros p. apply page_result_urls.
  - unfold Pipeline.summarize. cbn [pagesWithErrors pagesFailed].
    split.
    + intros H. destruct (Pipeline.count_status PS_errors _) eqn:E1;
        destruct (Pipeline.count_status PS_failed _) eqn:E2; cbn in H; try discriminate.
      apply Forall_and; apply count_status_zero; assumption.
    + intros H. apply Forall_and_inv in H as [H1 H2].
      apply count_status_zero in H1, H2. rewrite H1, H2. reflexivity.
  - destruct (_ || _); auto.
  - rewrite length_map. reflexivity.
Qed.

Lemma main_report_consistent_witness :
  let opts := mkOptions Fixture.nested_url None "report.html" [] false in
  let results := [page_result Fixture.ex_env Fixture.page_a Fixture.page_a] in
  report_file (main Fixture.ex_env (fun _ => Ok tt) opts) =
    Some ("report.html", (Pipeline.summarize results Fixture.nested_url, results)) /\
  exit_code (main Fixture.ex_env (fun _ => Ok tt) opts) = 0 /\
  sleeps (main Fixture.ex_env (fun _ => Ok tt) opts) = [Fin 1000].
Proof.
  cbv zeta.
  assert (E : report_file (main Fixture.ex_env (fun _ => Ok tt)
                 (mkOptions Fixture.nested_url None "report.html" [] false)) =
              Some ("report.html",
                    (Pipeline.summarize [page_result Fixture.ex_env Fixture.page_a Fixture.page_a]
                       Fixture.nested_url,
                     [page_result Fixture.ex_env Fixture.page_a Fixture.page_a])))
    by (vm_compute; reflexivity).
  destruct (main_report_consistent Fixture.ex_env (fun _ => Ok tt)
              (mkOptions Fixture.nested_url None "report.html" [] false) _ _ _ E)
    as (_ & _ & _ & _ & Hexit & _ & Hsleep).
  split; [exact E|]. split.
  - apply Hexit. repeat constructor; vm_compute; discriminate.
  - rewrite Hsleep. vm_compute. reflexivity.
Defined.

(** When [main] writes no report, it exits with 0 only for a sitemap that
    lists no URL, having checked no page and slept no delay; pages are
    checked without a report only when writing the report failed. *)
Theorem main_without_report env writeFile opts :
  let out := main env writeFile opts in
  report_file out = None ->
  exit_code out <= 1 /\
  (exit_code out = 0 ->
     extractUrlsFromSitemap env (o_sitemap opts) 0 = Ok [] /\
     validated out = [] /\ sleeps out = []) /\
  (validated out <> [] -> exists m, writeFile (o_output opts) = Err m).
Proof.
  cbv zeta. unfold main.
  destruct (match o_base opts with Some b => Ok b | None => getOrigin env (o_sitemap opts) end)
    as [b|m]; [|cbn; intros _; split; [auto|split; [discriminate|congruence]]].
  destruct (extractUrlsFromSitemap env (o_sitemap opts) 0) as [raw|m] eqn:Ex;
    [|cbn; intros _; split; [auto|split; [discriminate|congruence]]].
  destruct raw as [|u0 raw']; [cbn; intros _; split; [auto|split; [auto|congruence]]|].
  destruct (traverse _ (u0 :: raw')) as [us|m] eqn:Et;
    [|cbn; intros _; split; [auto|split; [discriminate|congruence]]].
  destruct (writeFile (o_output opts)) as [[]|m] eqn:Ew; cbn; [discriminate|].
  intros _. split; [auto|]. split; [discriminate|]. intros _. exists m. reflexivity.
Qed.

Lemma main_without_report_witness :
  let out := main Fixture.broken_env (fun _ => Ok tt)
               (mkOptions Fixture.broken_index_url None "report.html" [] false) in
  report_file out = None /\ exit_code out <= 1 /\ validated out = [].
Proof.
  cbv zeta.
  assert (E : report_file (main Fixture.broken_env (fun _ => Ok tt)
               (mkOptions Fixture.broken_index_url None "report.html" [] false)) = None)
    by (vm_compute; reflexivity).
  split; [exact E|].
  split; [exact (proj1 (main_without_report _ _ _ E))|].
  vm_compute. reflexivity.
Defined.

End MainFacts.
